(** * make_injection_pipeline: a shallow embedding and its properties

    The development follows
    [python/lsst/source/injection/utils/make_injection_pipeline.py].
    The Python function mutates one [Pipeline] object in place, writes to a
    logger and may raise; it is embedded in a state-and-exception monad
    whose state survives an exception, as the mutated object does. *)

From Stdlib Require Import String Ascii List.
From stdpp Require Import base option list strings gmap fin_sets fin_maps sorting.

Local Open Scope string_scope.

(* [set_solver] clears hypotheses it has already consumed. *)
#[local] Set Warnings "-clear-no-such-hyp".

(** ** Data model *)

(** A connection of a task: the dataset type name it resolves to (the
    [.name] attribute read by the code), whether it is listed in
    [conns.inputs] or [conns.outputs], and whether the field is an attribute
    of the connections class
    ([hasattr(taskDef.config.connections.ConnectionsClass, field)]). *)
Inductive ConnectionKind := Input | Output | OtherConnection.

Record Connection := mkConnection {
  name : string;
  kind : ConnectionKind;
  onConnectionsClass : bool
}.

(** An expanded task definition, as yielded by [toExpandedPipeline]:
    [isAnalysisPipelineTask] is [issubclass(taskDef.taskClass,
    AnalysisPipelineTask)], [outputName] is
    [taskDef.config.connections.outputName], [connections] maps a field to
    the attribute [getattr(conns, field)]. *)
Record TaskDef := mkTaskDef {
  label : string;
  isAnalysisPipelineTask : bool;
  outputName : string;
  connections : gmap string Connection
}.

(** The declarative entry of a task inside a pipeline: its class name and
    the configuration overrides recorded for it (key to value, a later
    override of a key replacing the earlier one). *)
Record TaskIR := mkTaskIR {
  klass : string;
  config : gmap string string
}.

Record Pipeline := mkPipeline {
  tasks : gmap string TaskIR;
  labeled_subsets : gmap string (gset string);
  instrument : option string
}.

#[global] Instance ConnectionKind_eq_dec : EqDecision ConnectionKind.
Proof. solve_decision. Defined.
#[global] Instance TaskIR_eq_dec : EqDecision TaskIR.
Proof. solve_decision. Defined.
#[global] Instance Pipeline_eq_dec : EqDecision Pipeline.
Proof. solve_decision. Defined.

(** Calls made on the logger, with the arguments of the format string. *)
Inductive LogRecord :=
| WarnNotExcluded (grammar : string) (labels : string)
| WarnDynamicConnection (field : string) (task : string)
| WarnNoInjectionPipeline (dataset_type_name : string)
| InfoInferred (dataset_type_name : string) (location : string)
| InfoMade (ntasks : nat).

Inductive Fatal :=
| DatasetTypeNotFound (dataset_type_name : string)
| WrongTaskCount (ntasks : nat).

Inductive Exn :=
| ValueError
| KeyError
| LookupError
| RuntimeError (why : Fatal).

#[global] Instance Fatal_eq_dec : EqDecision Fatal.
Proof. solve_decision. Defined.
#[global] Instance Exn_eq_dec : EqDecision Exn.
Proof. solve_decision. Defined.

(** ** The monad *)

(** The state is the object bound to [pipeline] together with the records
    sent to the logger so far. *)
Record Env := mkEnv {
  pipeline : Pipeline;
  records : list LogRecord
}.

Definition M (A : Type) : Type := Env → Env * (Exn + A).

#[global] Instance M_ret : MRet M := λ A a e, (e, inr a).
#[global] Instance M_bind : MBind M := λ A B f m e,
  match m e with
  | (e', inr a) => f a e'
  | (e', inl x) => (e', inl x)
  end.

Definition raise {A} (x : Exn) : M A := λ e, (e, inl x).
Definition get_pipeline : M Pipeline := λ e, (e, inr (pipeline e)).
Definition logger (r : LogRecord) : M unit :=
  λ e, (mkEnv (pipeline e) (records e ++ [r]), inr tt).

(** A method of the pipeline object that mutates it or raises. *)
Definition method (f : Pipeline → Exn + Pipeline) : M unit := λ e,
  match f (pipeline e) with
  | inr p => (mkEnv p (records e), inr tt)
  | inl x => (e, inl x)
  end.

(** A method that only reads the object. *)
Definition query {A} (f : Pipeline → Exn + A) : M A := λ e, (e, f (pipeline e)).

(** [try: a = m  except x: ...]: [None] when [m] raised [x]; any other
    exception propagates.  Mutations made before the exception stay. *)
Definition try_except {A} (x : Exn) (m : M A) : M (option A) := λ e,
  match m e with
  | (e', inr a) => (e', inr (Some a))
  | (e', inl y) => if decide (y = x) then (e', inr None) else (e', inl y)
  end.

(** [for x in xs: body x]. *)
Fixpoint for_each {A} (xs : list A) (body : A → M unit) : M unit :=
  match xs with
  | [] => mret tt
  | x :: xs' => body x ;; for_each xs' body
  end.

(** A loop that updates local variables [S]. *)
Fixpoint for_fold {A S} (xs : list A) (body : A → S → M S) (s : S) : M S :=
  match xs with
  | [] => mret s
  | x :: xs' => s' ← body x s; for_fold xs' body s'
  end.

(** ** Methods of [lsst.pipe.base.Pipeline] *)

(** [lsst.pipe.base] is a dependency of the package, not part of its
    sources; the methods below follow that library's documented behaviour
    (the exceptions are the ones the code under study catches). *)

(** [Pipeline.findSubsetsWithLabel]: the names of the subsets holding
    [label]; [ValueError] when [label] is not a task of the pipeline. *)
Definition findSubsetsWithLabel (task_label : string) (p : Pipeline) : Exn + gset string :=
  if decide (task_label ∈ dom (tasks p)) then
    inr (dom (filter (λ kv, task_label ∈ kv.2) (labeled_subsets p)))
  else inl ValueError.

(** [Pipeline.removeLabelFromSubset]: [ValueError] when the subset does not
    exist or does not hold the label. *)
Definition removeLabelFromSubset (subset task_label : string) (p : Pipeline) : Exn + Pipeline :=
  match labeled_subsets p !! subset with
  | Some members =>
      if decide (task_label ∈ members) then
        inr (mkPipeline (tasks p)
               (<[subset := members ∖ {[task_label]}]> (labeled_subsets p))
               (instrument p))
      else inl ValueError
  | None => inl ValueError
  end.

(** [Pipeline.addLabelToSubset]: the member labels of a subset are a set;
    [LookupError] when the label or the subset does not exist. *)
Definition addLabelToSubset (subset task_label : string) (p : Pipeline) : Exn + Pipeline :=
  if decide (task_label ∈ dom (tasks p)) then
    match labeled_subsets p !! subset with
    | Some members =>
        inr (mkPipeline (tasks p)
               (<[subset := members ∪ {[task_label]}]> (labeled_subsets p))
               (instrument p))
    | None => inl LookupError
    end
  else inl LookupError.

(** [Pipeline.removeTask]: [KeyError] when there is no such task. *)
Definition removeTask (task_label : string) (p : Pipeline) : Exn + Pipeline :=
  if decide (task_label ∈ dom (tasks p)) then
    inr (mkPipeline (delete task_label (tasks p)) (labeled_subsets p) (instrument p))
  else inl KeyError.

(** [Pipeline.addConfigOverride]: [LookupError] when there is no such
    task. *)
Definition addConfigOverride (task_label key value : string) (p : Pipeline) : Exn + Pipeline :=
  match tasks p !! task_label with
  | Some ir =>
      inr (mkPipeline
             (<[task_label := mkTaskIR (klass ir) (<[key := value]> (config ir))]> (tasks p))
             (labeled_subsets p) (instrument p))
  | None => inl LookupError
  end.

(** [Pipeline.addInstrument]. *)
Definition addInstrument (i : string) (p : Pipeline) : Exn + Pipeline :=
  inr (mkPipeline (tasks p) (labeled_subsets p) (Some i)).

(** Modelled from the spec: [Pipeline.mergePipeline] is not part of the
    sources.  The single task is merged into the main pipeline; a label
    collision with an existing task is an error surfaced by the merge
    step.  Subsets and instrument of the receiving pipeline are kept. *)
Definition mergePipeline (pipeline2 : Pipeline) (p : Pipeline) : Exn + Pipeline :=
  if decide (dom (tasks p) ∩ dom (tasks pipeline2) = ∅) then
    inr (mkPipeline (tasks p ∪ tasks pipeline2)
           (labeled_subsets p ∪ labeled_subsets pipeline2)
           (instrument p))
  else inl ValueError.

(** [len(pipeline)]. *)
Definition len (p : Pipeline) : nat := size (tasks p).

(** ** Helpers of the Python code *)

(** [getattr(conns, field).name].  The fields the code reads are those of
    [conns.inputs] and [conns.outputs], which are attributes of [conns]. *)
Definition getattr_name (conns : gmap string Connection) (field : string) : string :=
  from_option name "" (conns !! field).

(** [hasattr(taskDef.config.connections.ConnectionsClass, field)]. *)
Definition hasattr_ConnectionsClass (conns : gmap string Connection) (field : string) : bool :=
  from_option onConnectionsClass false (conns !! field).

Definition fields_of (k : ConnectionKind) (conns : gmap string Connection) : gset string :=
  dom (filter (λ kv, kind kv.2 = k) conns).

(** [conns.inputs] and [conns.outputs]: sets of field names. *)
Definition inputs (conns : gmap string Connection) : gset string := fields_of Input conns.
Definition outputs (conns : gmap string Connection) : gset string := fields_of Output conns.

(** [_get_dataset_type_names(conns, fields)] (lines 32-37). *)
Definition _get_dataset_type_names (conns : gmap string Connection) (fields : gset string)
  : gset string :=
  set_fold (λ field dataset_type_names, dataset_type_names ∪ {[getattr_name conns field]})
           ∅ fields.

(** The [input_types] and [output_types] of a task (lines 154-155). *)
Definition input_types_of (t : TaskDef) : gset string :=
  _get_dataset_type_names (connections t) (inputs (connections t)).
Definition output_types_of (t : TaskDef) : gset string :=
  _get_dataset_type_names (connections t) (outputs (connections t)).

(** [s.split(",")]. *)
Fixpoint split_comma (s : string) : list string :=
  match s with
  | EmptyString => [""]
  | String c s' =>
      if Ascii.eqb c "," then "" :: split_comma s'
      else match split_comma s' with
           | [] => [String c ""]
           | w :: ws => String c w :: ws
           end
  end.

(** [sorted] on strings and [", ".join]. *)
Definition string_le (s1 s2 : string) : Prop := String.leb s1 s2 = true.
#[global] Instance string_le_dec : RelDecision string_le.
Proof. intros s1 s2. unfold string_le. apply _. Defined.

Definition sorted (l : list string) : list string := merge_sort string_le l.
Definition join (sep : string) (l : list string) : string := String.concat sep l.

(** Arguments that are either an object or a location. *)
Inductive PipelineOrStr :=
| IsPipeline (p : Pipeline)
| IsStr (location : string).

Inductive ExcludedTasks :=
| ExcludedSet (labels : gset string)
| ExcludedStr (labels : string).

(** The default value of [excluded_tasks] (lines 46-52). *)
Definition default_excluded_tasks : ExcludedTasks :=
  ExcludedSet {[ "jointcal"; "gbdesAstrometricFit"; "fgcmBuildFromIsolatedStars";
                 "fgcmFitCycle"; "fgcmOutputProducts" ]}.

(** Python's truth value: a string is true when it is not empty; an object
    whose class defines [__len__] (as [Pipeline] does, lines 214 and 235)
    is true when its length is not zero. *)
Definition truthy_str (s : string) : bool := negb (String.eqb s "").

Definition truthy (x : option PipelineOrStr) : bool :=
  match x with
  | None => false
  | Some (IsStr s) => truthy_str s
  | Some (IsPipeline p) => negb (Nat.eqb (len p) 0)
  end.

(** The local variables of the loop over the tasks (lines 135-137). *)
Record Locals := mkLocals {
  all_connection_type_names : gset string;
  injected_types : gset string;
  precursor_injection_task_labels : gset string
}.

(** The [match] of lines 186-193. *)
Definition inferred_location (dataset_type_name : string) : option string :=
  if decide (dataset_type_name = "postISRCCD") then
    Some "$SOURCE_INJECTION_DIR/pipelines/inject_exposure.yaml"
  else if decide (dataset_type_name ∈ ["icExp"; "calexp"]) then
    Some "$SOURCE_INJECTION_DIR/pipelines/inject_visit.yaml"
  else if decide (dataset_type_name ∈ ["deepCoadd"; "deepCoadd_calexp"; "goodSeeingCoadd"]) then
    Some "$SOURCE_INJECTION_DIR/pipelines/inject_coadd.yaml"
  else None.

(** ** The function *)

Section make_injection_pipeline.

(** The two collaborators that reach outside the declarative pipeline:
    [Pipeline.fromFile] reads a definition file, and
    [Pipeline.toExpandedPipeline] instantiates every task of the pipeline
    and yields the task definitions in dependency order.  The generator
    builds all of them when the loop starts, so overrides added inside the
    loop do not change the definitions the loop sees.  Both are taken as
    given; a file that cannot be read is outside the function. *)
Variable fromFile : string → Pipeline.
Variable toExpandedPipeline : Pipeline → list TaskDef.

Definition load (x : PipelineOrStr) : Pipeline :=
  match x with
  | IsStr location => fromFile location
  | IsPipeline p => p
  end.

(** Lines 112-125, one iteration. *)
Definition exclude_task (task_label : string) (not_excluded_tasks : gset string)
  : M (gset string) :=
  host_subsets ← try_except ValueError (query (findSubsetsWithLabel task_label));
  match host_subsets with
  | None => mret tt
  | Some host_subsets =>
      for_each (elements host_subsets)
        (λ host_subset, method (removeLabelFromSubset host_subset task_label))
  end ;;
  removed ← try_except KeyError (method (removeTask task_label));
  match removed with
  | Some _ => mret not_excluded_tasks
  | None => mret (not_excluded_tasks ∪ {[task_label]})
  end.

(** Lines 108-132: remove all tasks which are not to be included. *)
Definition remove_excluded_tasks (excluded_tasks : ExcludedTasks) : M unit :=
  let excluded_tasks :=
    match excluded_tasks with
    | ExcludedStr s => list_to_set (split_comma s)
    | ExcludedSet s => s
    end in
  not_excluded_tasks ← for_fold (elements excluded_tasks) exclude_task ∅;
  if decide (0 < size not_excluded_tasks) then
    let grammar := if decide (size not_excluded_tasks = 1) then "Task" else "Tasks" in
    logger (WarnNotExcluded grammar (join ", " (sorted (elements not_excluded_tasks))))
  else mret tt.

(** Lines 164-176, one iteration. *)
Definition rename_field (prefix : string) (taskDef : TaskDef) (injected_types : gset string)
    (field : string) : M unit :=
  let conns := connections taskDef in
  if hasattr_ConnectionsClass conns field then
    let conn_type := getattr_name conns field in
    if decide (conn_type ∈ injected_types) then
      method (addConfigOverride (label taskDef) ("connections." +:+ field) (prefix +:+ conn_type))
    else mret tt
  else logger (WarnDynamicConnection field (label taskDef)).

(** Lines 139-176, one iteration. *)
Definition visit (dataset_type_name prefix : string) (taskDef : TaskDef) (l : Locals)
  : M Locals :=
  if isAnalysisPipelineTask taskDef then
    method (addConfigOverride (label taskDef) "connections.outputName"
              (prefix +:+ outputName taskDef)) ;;
    mret l
  else
    let conns := connections taskDef in
    let input_types := _get_dataset_type_names conns (inputs conns) in
    let output_types := _get_dataset_type_names conns (outputs conns) in
    let all_connection_type_names :=
      all_connection_type_names l ∪ (input_types ∪ output_types) in
    let precursor_injection_task_labels :=
      if decide (dataset_type_name ∈ output_types)
      then precursor_injection_task_labels l ∪ {[label taskDef]}
      else precursor_injection_task_labels l in
    if decide (0 < size (input_types ∩ injected_types l)) then
      let injected_types := injected_types l ∪ output_types in
      for_each (elements (inputs conns ∪ outputs conns))
        (rename_field prefix taskDef injected_types) ;;
      mret (mkLocals all_connection_type_names injected_types
              precursor_injection_task_labels)
    else
      mret (mkLocals all_connection_type_names (injected_types l)
              precursor_injection_task_labels).

(** Lines 135-176: the loop over all tasks in the pipeline. *)
Definition propagate (dataset_type_name prefix : string) (order : list TaskDef) : M Locals :=
  for_fold order (visit dataset_type_name prefix)
    (mkLocals ∅ {[dataset_type_name]} ∅).

(** Lines 134-182: determine the dataset type names affected by source
    injection, and raise if the injected dataset type does not exist. *)
Definition determine_injected_types (dataset_type_name prefix : string) : M Locals :=
  p ← get_pipeline;
  l ← propagate dataset_type_name prefix (toExpandedPipeline p);
  if decide (dataset_type_name ∉ all_connection_type_names l) then
    raise (RuntimeError (DatasetTypeNotFound dataset_type_name))
  else mret l.

(** The [%s] rendering of [injection_pipeline] at line 205; it is a string
    there. *)
Definition location_of (x : option PipelineOrStr) : string :=
  match x with
  | Some (IsStr location) => location
  | _ => ""
  end.

(** Lines 184-206: attempt to infer the injection pipeline. *)
Definition infer_injection_pipeline (dataset_type_name : string)
    (injection_pipeline : option PipelineOrStr) : M (option PipelineOrStr) :=
  if negb (truthy injection_pipeline) then
    injection_pipeline ←
      match inferred_location dataset_type_name with
      | Some location => mret (Some (IsStr location))
      | None => logger (WarnNoInjectionPipeline dataset_type_name) ;; mret injection_pipeline
      end;
    (if truthy injection_pipeline
     then logger (InfoInferred dataset_type_name (location_of injection_pipeline))
     else mret tt) ;;
    mret injection_pipeline
  else mret injection_pipeline.

(** Lines 228-233: update the subsets to include the injection task. *)
Definition update_subsets (injection_label : string) (precursors : gset string) : M unit :=
  for_each (elements precursors) (λ label,
    precursor_subsets ← query (findSubsetsWithLabel label);
    for_each (elements precursor_subsets)
      (λ subset, method (addLabelToSubset subset injection_label))).

(** Lines 210-233: the body of [if injection_pipeline:]. *)
Definition merge_injection_pipeline (dataset_type_name prefix : string)
    (exclude_subsets : bool) (precursors : gset string)
    (injection_pipeline : PipelineOrStr) : M unit :=
  let pipeline2 := load injection_pipeline in
  if decide (len pipeline2 ≠ 1) then
    raise (RuntimeError (WrongTaskCount (len pipeline2)))
  else
    method (mergePipeline pipeline2) ;;
    for_each (toExpandedPipeline pipeline2) (λ injection_taskDef,
      method (addConfigOverride (label injection_taskDef)
                "connections.input_exposure" dataset_type_name) ;;
      method (addConfigOverride (label injection_taskDef)
                "connections.output_exposure" (prefix +:+ dataset_type_name)) ;;
      if negb exclude_subsets
      then update_subsets (label injection_taskDef) precursors
      else mret tt).

(** Lines 104-106: add an instrument override, if provided. *)
Definition add_instrument (instrument : option string) : M unit :=
  match instrument with
  | Some i => if truthy_str i then method (addInstrument i) else mret tt
  | None => mret tt
  end.

(** Lines 104-236, on the object bound to [pipeline]. *)
Definition run (dataset_type_name : string) (injection_pipeline : option PipelineOrStr)
    (exclude_subsets : bool) (excluded_tasks : ExcludedTasks) (prefix : string)
    (instrument : option string) : M Pipeline :=
  add_instrument instrument ;;
  remove_excluded_tasks excluded_tasks ;;
  l ← determine_injected_types dataset_type_name prefix;
  injection_pipeline ← infer_injection_pipeline dataset_type_name injection_pipeline;
  match injection_pipeline with
  | Some x =>
      if truthy injection_pipeline
      then merge_injection_pipeline dataset_type_name prefix exclude_subsets
             (precursor_injection_task_labels l) x
      else mret tt
  | None => mret tt
  end ;;
  p ← get_pipeline;
  logger (InfoMade (len p)) ;;
  mret p.

(** The function.  When [reference_pipeline] is an object, [pipeline] is
    that very object, and the final state of the result is the state the
    caller's object is left in, also when the call raises.  The logger
    level does not change what is sent to the logger and is left out. *)
Definition make_injection_pipeline (dataset_type_name : string)
    (reference_pipeline : PipelineOrStr) (injection_pipeline : option PipelineOrStr)
    (exclude_subsets : bool) (excluded_tasks : ExcludedTasks) (prefix : string)
    (instrument : option string) : Env * (Exn + Pipeline) :=
  run dataset_type_name injection_pipeline exclude_subsets excluded_tasks prefix instrument
    (mkEnv (load reference_pipeline) []).

End make_injection_pipeline.

(** ** A reference implementation of the collaborators

    Used to run the function on concrete pipelines.  A task class fixes
    whether the task is an analysis task, its declared [outputName] and its
    declared connections; building a task definition reads the declared
    names through the overrides recorded in the pipeline. *)

Record TaskClass := mkTaskClass {
  analysis : bool;
  declaredOutputName : string;
  declaredConnections : gmap string Connection
}.

Definition buildTaskDef (classes : gmap string TaskClass) (entry : string * TaskIR) : TaskDef :=
  let c := default (mkTaskClass false "" ∅) (classes !! klass entry.2) in
  mkTaskDef entry.1 (analysis c)
    (default (declaredOutputName c) (config entry.2 !! "connections.outputName"))
    (map_imap (λ field conn,
       Some (mkConnection
               (default (name conn) (config entry.2 !! ("connections." +:+ field)))
               (kind conn) (onConnectionsClass conn)))
       (declaredConnections c)).

(** A task is ready when no other pending task produces one of its inputs. *)
Definition ready (pending : list TaskDef) (t : TaskDef) : Prop :=
  Forall (λ u, label u = label t ∨ output_types_of u ∩ input_types_of t = ∅) pending.

#[global] Instance ready_dec pending t : Decision (ready pending t).
Proof. unfold ready. apply _. Defined.

(** Dependency order: repeatedly yield the first ready task.  On a cyclic
    graph, which the function under study assumes away, the remaining tasks
    are yielded as they are. *)
Fixpoint orderPipeline (fuel : nat) (pending : list TaskDef) : list TaskDef :=
  match fuel with
  | 0 => pending
  | S fuel' =>
      match list_find (ready pending) pending with
      | Some (i, t) => t :: orderPipeline fuel' (delete i pending)
      | None => pending
      end
  end.

Definition expand (classes : gmap string TaskClass) (p : Pipeline) : list TaskDef :=
  let taskDefs := buildTaskDef classes <$> map_to_list (tasks p) in
  orderPipeline (length taskDefs) taskDefs.

Definition no_files : string → Pipeline := λ _, mkPipeline ∅ ∅ None.

(** The override recorded in a pipeline for a key of a task, if any. *)
Definition configOverride (p : Pipeline) (task_label key : string) : option string :=
  ir ← tasks p !! task_label; config ir !! key.

(** Modelled from the spec: the connection model's [effectiveName] is not
    part of the sources.  The effective artifact-type name of a binding is
    resolved by checking the override record first, falling back to the
    declared name. *)
Definition effectiveName (p : Pipeline) (task_label field declared : string) : string :=
  default declared (configOverride p task_label ("connections." +:+ field)).

(** Every label referenced by a subset exists among the tasks. *)
Definition subsets_closed (p : Pipeline) : Prop :=
  ∀ subset members, labeled_subsets p !! subset = Some members → members ⊆ dom (tasks p).

(** The set the exclusion loop iterates over. *)
Definition excluded_labels (excluded_tasks : ExcludedTasks) : gset string :=
  match excluded_tasks with
  | ExcludedStr s => list_to_set (split_comma s)
  | ExcludedSet s => s
  end.

(** Producers come before consumers: no task reads what a later task of
    the order writes. *)
Fixpoint dependency_order (order : list TaskDef) : Prop :=
  match order with
  | [] => True
  | t :: rest =>
      Forall (λ u, output_types_of u ∩ input_types_of t = ∅) rest ∧ dependency_order rest
  end.

#[global] Instance dependency_order_dec order : Decision (dependency_order order).
Proof. induction order; simpl; apply _. Defined.

(** A task is affected when one of its input dataset type names is in the
    set of injected types (line 161). *)
Definition affected (t : TaskDef) (l : Locals) : Prop :=
  input_types_of t ∩ injected_types l ≠ ∅.

(** Two states of the pipeline object that differ at most in the overrides
    recorded for the task [task_label]. *)
Definition differ_at_task (task_label : string) (p p' : Pipeline) : Prop :=
  dom (tasks p') = dom (tasks p) ∧
  labeled_subsets p' = labeled_subsets p ∧
  instrument p' = instrument p ∧
  (∀ l, l ≠ task_label → tasks p' !! l = tasks p !! l) ∧
  ∀ l, klass <$> tasks p' !! l = klass <$> tasks p !! l.

(** Two states of the pipeline object that differ at most in the
    [connections.outputName] override of the tasks in [labels]. *)
Definition differ_in_outputName (labels : list string) (p p' : Pipeline) : Prop :=
  dom (tasks p') = dom (tasks p) ∧
  labeled_subsets p' = labeled_subsets p ∧
  instrument p' = instrument p ∧
  (∀ l, l ∉ labels → tasks p' !! l = tasks p !! l) ∧
  (∀ l key, key ≠ "connections.outputName" →
            configOverride p' l key = configOverride p l key) ∧
  ∀ l, klass <$> tasks p' !! l = klass <$> tasks p !! l.

(** The local variables after one iteration of the loop over the tasks;
    they do not depend on the state of the pipeline object. *)
Definition visit_locals (dataset_type_name : string) (t : TaskDef) (l : Locals) : Locals :=
  if isAnalysisPipelineTask t then l
  else
    mkLocals
      (all_connection_type_names l ∪ (input_types_of t ∪ output_types_of t))
      (if decide (affected t l) then injected_types l ∪ output_types_of t
       else injected_types l)
      (if decide (dataset_type_name ∈ output_types_of t)
       then precursor_injection_task_labels l ∪ {[label t]}
       else precursor_injection_task_labels l).

(** Every subset that holds [task_label] also holds [injection_label]. *)
Definition follows (task_label injection_label : string) (p : Pipeline) : Prop :=
  ∀ subset members, labeled_subsets p !! subset = Some members →
                    task_label ∈ members → injection_label ∈ members.

(** The tasks are the same and every subset has kept its members. *)
Definition subsets_grow (p p' : Pipeline) : Prop :=
  tasks p' = tasks p ∧
  ∀ subset members, labeled_subsets p !! subset = Some members →
    ∃ members', labeled_subsets p' !! subset = Some members' ∧ members ⊆ members'.

(** ** Example pipelines *)

Definition connection_table (ins outs : list (string * string)) : gmap string Connection :=
  list_to_map ((λ fn, (fn.1, mkConnection fn.2 Input true)) <$> ins) ∪
  list_to_map ((λ fn, (fn.1, mkConnection fn.2 Output true)) <$> outs).

(** Task classes: a chain producing and consuming [x], [y], [z]; a sibling
    reading [w]; an analysis task reading [q]; a task with an output
    connection that is not an attribute of its connections class; an
    injection task. *)
Definition classes : gmap string TaskClass :=
  list_to_map
    [("TaskA", mkTaskClass false "" (connection_table [] [("out", "x")]));
     ("TaskB", mkTaskClass false "" (connection_table [("in", "x")] [("out", "y")]));
     ("TaskC", mkTaskClass false "" (connection_table [("in", "y")] [("out", "z")]));
     ("TaskD", mkTaskClass false "" (connection_table [("in", "w")] [("out", "v")]));
     ("PlotTask", mkTaskClass true "plots" (connection_table [("data", "q")] []));
     ("LooseTask", mkTaskClass false ""
        (<["out" := mkConnection "y" Output false]> (connection_table [("in", "x")] [])));
     ("InjectTask", mkTaskClass false ""
        (connection_table [("input_exposure", "exposure")]
                          [("output_exposure", "injected_exposure")]))].

Definition task_of (task_label class : string) : TaskDef :=
  buildTaskDef classes (task_label, mkTaskIR class ∅).

Definition task_A : TaskDef := task_of "A" "TaskA".
Definition task_B : TaskDef := task_of "B" "TaskB".
Definition task_C : TaskDef := task_of "C" "TaskC".
Definition task_D : TaskDef := task_of "D" "TaskD".
Definition task_plots : TaskDef := task_of "plots" "PlotTask".
Definition task_loose : TaskDef := task_of "loose" "LooseTask".
Definition task_inject : TaskDef := task_of "inject" "InjectTask".

Definition pipeline_of (entries : list (string * string))
    (subsets : list (string * list string)) : Pipeline :=
  mkPipeline (list_to_map ((λ lc, (lc.1, mkTaskIR lc.2 ∅)) <$> entries))
    (list_to_map ((λ sm, (sm.1, list_to_set sm.2)) <$> subsets)) None.

Definition chain_pipeline : Pipeline :=
  pipeline_of [("A", "TaskA"); ("B", "TaskB"); ("C", "TaskC"); ("D", "TaskD")]
    [("step1", ["A"; "B"]); ("step2", ["C"; "D"])].

Definition plots_pipeline : Pipeline :=
  pipeline_of [("jointcal", "TaskD"); ("B", "TaskB"); ("plots", "PlotTask")]
    [("all", ["jointcal"; "B"; "plots"])].

Definition loose_pipeline : Pipeline := pipeline_of [("loose", "LooseTask")] [].

Definition injection_stub : Pipeline := pipeline_of [("inject", "InjectTask")] [].

Definition empty_pipeline : Pipeline := pipeline_of [] [].

Definition start (p : Pipeline) : Env := mkEnv p [].

Definition initial_locals (dataset_type_name : string) : Locals :=
  mkLocals ∅ {[dataset_type_name]} ∅.

(** What the chain example expects of a run of the propagation over the
    four tasks: [y] and [z] renamed on B and C, A and D left as they were. *)
Definition chain_renamed (order : list TaskDef) : bool :=
  match propagate "x" "injected_" order (start chain_pipeline) with
  | (e', inr l') =>
      bool_decide
        (configOverride (pipeline e') "B" "connections.out" = Some "injected_y" ∧
         configOverride (pipeline e') "C" "connections.out" = Some "injected_z" ∧
         configOverride (pipeline e') "B" "connections.in" = Some "injected_x" ∧
         configOverride (pipeline e') "C" "connections.in" = Some "injected_y" ∧
         tasks (pipeline e') !! "A" = tasks chain_pipeline !! "A" ∧
         tasks (pipeline e') !! "D" = tasks chain_pipeline !! "D" ∧
         injected_types l' = {[ "x"; "y"; "z" ]} ∧
         precursor_injection_task_labels l' = {[ "A" ]})
  | _ => false
  end.

(** The value a run returned, [d] when it raised. *)
Definition returned {A} (d : A) (r : Env * (Exn + A)) : A :=
  match r.2 with
  | inr a => a
  | inl _ => d
  end.

(** The state of [plots_pipeline] after the exclusion pass with the default
    excluded tasks. *)
Definition plots_after_exclusion : Env :=
  (remove_excluded_tasks default_excluded_tasks (start plots_pipeline)).1.

(** The state of [chain_pipeline] after merging [injection_stub] with the
    precursor label [A]. *)
Definition chain_after_merge : Env :=
  (merge_injection_pipeline no_files (expand classes) "x" "injected_" false {[ "A" ]}
     (IsPipeline injection_stub) (start chain_pipeline)).1.

(** ** Running the monad *)

Lemma bind_run {A B} (m : M A) (f : A → M B) e :
  (m ≫= f) e = match m e with
               | (e', inr a) => f a e'
               | (e', inl x) => (e', inl x)
               end.
Proof. reflexivity. Qed.

Lemma bind_ok {A B} (m : M A) (f : A → M B) e e' a :
  m e = (e', inr a) → (m ≫= f) e = f a e'.
Proof. intros H. rewrite bind_run, H. reflexivity. Qed.

Lemma bind_inv {A B} (m : M A) (f : A → M B) e e2 b :
  (m ≫= f) e = (e2, inr b) → ∃ e1 a, m e = (e1, inr a) ∧ f a e1 = (e2, inr b).
Proof.
  rewrite bind_run. destruct (m e) as [e1 [x|a]]; [discriminate|]. eauto.
Qed.

Lemma method_ok f e p :
  f (pipeline e) = inr p → method f e = (mkEnv p (records e), inr tt).
Proof. intros H. unfold method. rewrite H. reflexivity. Qed.

Lemma method_inv f e e' :
  method f e = (e', inr tt) →
  f (pipeline e) = inr (pipeline e') ∧ records e' = records e.
Proof.
  unfold method. destruct (f (pipeline e)); [discriminate|].
  intros [= <-]. done.
Qed.

(** Loop invariants: a property kept by every iteration that returns is
    kept by the loop, and a loop whose iterations all return under the
    invariant returns. *)
Lemma try_except_ok {A} x (m : M A) e e' a :
  m e = (e', inr a) → try_except x m e = (e', inr (Some a)).
Proof. intros H. unfold try_except. rewrite H. reflexivity. Qed.

Lemma try_except_caught {A} x (m : M A) e e' :
  m e = (e', inl x) → try_except x m e = (e', inr None).
Proof. intros H. unfold try_except. rewrite H. by rewrite decide_True. Qed.

Lemma for_each_inv {A} (P : Env → Prop) (xs : list A) body e e' :
  (∀ x e1 e2, x ∈ xs → P e1 → body x e1 = (e2, inr tt) → P e2) →
  P e → for_each xs body e = (e', inr tt) → P e'.
Proof.
  revert e. induction xs as [|x xs IH]; simpl; intros e Hbody HP Hrun.
  - injection Hrun as <-. exact HP.
  - apply bind_inv in Hrun as (e1 & [] & Hx & Hrest).
    eapply IH; [|eapply Hbody; [left|exact HP|exact Hx]|exact Hrest].
    intros y e2 e3 Hy. apply Hbody. by right.
Qed.

Lemma for_each_total {A} (P : Env → Prop) (xs : list A) body e :
  (∀ x e1, x ∈ xs → P e1 → ∃ e2, body x e1 = (e2, inr tt) ∧ P e2) →
  P e → ∃ e', for_each xs body e = (e', inr tt) ∧ P e'.
Proof.
  revert e. induction xs as [|x xs IH]; simpl; intros e Hbody HP.
  - exists e. done.
  - destruct (Hbody x e) as (e1 & Hx & HP1); [left|done|].
    rewrite (bind_ok _ _ _ _ _ Hx). apply IH; [|done].
    intros y e2 Hy. apply Hbody. by right.
Qed.

Lemma for_fold_inv {A S} (P : S → Env → Prop) (xs : list A) body s e s' e' :
  (∀ x s1 e1 s2 e2, x ∈ xs → P s1 e1 → body x s1 e1 = (e2, inr s2) → P s2 e2) →
  P s e → for_fold xs body s e = (e', inr s') → P s' e'.
Proof.
  revert s e. induction xs as [|x xs IH]; simpl; intros s e Hbody HP Hrun.
  - injection Hrun as <- <-. exact HP.
  - apply bind_inv in Hrun as (e1 & s1 & Hx & Hrest).
    eapply IH; [|eapply Hbody; [left|exact HP|exact Hx]|exact Hrest].
    intros y s2 e2 s3 e3 Hy. apply Hbody. by right.
Qed.

Lemma for_fold_total {A S} (P : S → Env → Prop) (xs : list A) body s e :
  (∀ x s1 e1, x ∈ xs → P s1 e1 → ∃ s2 e2, body x s1 e1 = (e2, inr s2) ∧ P s2 e2) →
  P s e → ∃ s' e', for_fold xs body s e = (e', inr s') ∧ P s' e'.
Proof.
  revert s e. induction xs as [|x xs IH]; simpl; intros s e Hbody HP.
  - exists s, e. done.
  - destruct (Hbody x s e) as (s1 & e1 & Hx & HP1); [left|done|].
    rewrite (bind_ok _ _ _ _ _ Hx). apply IH; [|done].
    intros y s2 e2 Hy. apply Hbody. by right.
Qed.

Lemma for_fold_app {A S} (xs ys : list A) (body : A → S → M S) s e :
  for_fold (xs ++ ys) body s e =
  match for_fold xs body s e with
  | (e1, inr s1) => for_fold ys body s1 e1
  | (e1, inl x) => (e1, inl x)
  end.
Proof.
  revert s e. induction xs as [|x xs IH]; simpl; intros s e.
  - reflexivity.
  - rewrite !bind_run. destruct (body x s e) as [e1 [err|s1]]; [reflexivity|].
    apply IH.
Qed.

(** A property that the iteration on [x] establishes and that every
    iteration keeps holds after the loop. *)
Lemma for_each_establish {A} (Q : Env → Prop) (xs : list A) body x e e' :
  x ∈ xs →
  (∀ e1 e2, body x e1 = (e2, inr tt) → Q e2) →
  (∀ y e1 e2, y ∈ xs → Q e1 → body y e1 = (e2, inr tt) → Q e2) →
  for_each xs body e = (e', inr tt) → Q e'.
Proof.
  revert e. induction xs as [|y xs IH]; intros e Hx Hest Hkeep Hrun.
  - by apply elem_of_nil in Hx.
  - simpl in Hrun. apply bind_inv in Hrun as (e1 & [] & Hy & Hrest).
    apply elem_of_cons in Hx as [<-|Hx].
    + revert Hrest. apply for_each_inv; [|by eapply Hest].
      intros z ea eb Hz. apply Hkeep. by right.
    + eapply IH; [done|done| |exact Hrest].
      intros z ea eb Hz. apply Hkeep. by right.
Qed.

(** ** The exclusion pass *)

(** Removing one label from the listed host subsets, which all hold it. *)
Lemma remove_from_host_subsets task_label (hosts : list string) p r :
  NoDup hosts →
  (∀ s, s ∈ hosts → ∃ m, labeled_subsets p !! s = Some m ∧ task_label ∈ m) →
  ∃ subsets',
    for_each hosts (λ host_subset, method (removeLabelFromSubset host_subset task_label))
      (mkEnv p r)
    = (mkEnv (mkPipeline (tasks p) subsets' (instrument p)) r, inr tt) ∧
    ∀ s, subsets' !! s =
         (λ m, if decide (s ∈ hosts) then m ∖ {[task_label]} else m) <$> labeled_subsets p !! s.
Proof.
  revert p. induction hosts as [|h hosts IH]; intros p Hnd Hhost; simpl.
  - exists (labeled_subsets p). split; [by destruct p|].
    intros s. by destruct (labeled_subsets p !! s).
  - apply NoDup_cons in Hnd as [Hh Hnd].
    destruct (Hhost h) as (m & Hm & Hin); [left|].
    set (p1 := mkPipeline (tasks p) (<[h := m ∖ {[task_label]}]> (labeled_subsets p))
                 (instrument p)).
    assert (method (removeLabelFromSubset h task_label) (mkEnv p r) = (mkEnv p1 r, inr tt))
      as Hstep.
    { apply method_ok. simpl. unfold removeLabelFromSubset. rewrite Hm.
      by rewrite decide_True. }
    rewrite (bind_ok _ _ _ _ _ Hstep).
    destruct (IH p1 Hnd) as (subsets' & Hrun & Hlook).
    { intros s Hs. simpl. rewrite lookup_insert_ne; [|intros ->; done].
      apply Hhost. by right. }
    exists subsets'. split; [exact Hrun|].
    intros s. rewrite Hlook. simpl.
    destruct (decide (h = s)) as [<-|Hne].
    + rewrite lookup_insert_eq, Hm. simpl.
      rewrite decide_False by done. rewrite decide_True by left. done.
    + rewrite lookup_insert_ne by done.
      destruct (labeled_subsets p !! s); simpl; [|done].
      f_equal. destruct (decide (s ∈ hosts)) as [Hs|Hs].
      * rewrite decide_True; [done|by right].
      * rewrite decide_False; [done|]. intros [->|?]%elem_of_cons; done.
Qed.

(** One iteration of the exclusion loop on a label that is a task: the
    label leaves every subset, then the task leaves the pipeline. *)
Lemma exclude_task_present task_label acc e :
  task_label ∈ dom (tasks (pipeline e)) →
  ∃ subsets',
    exclude_task task_label acc e
    = (mkEnv (mkPipeline (delete task_label (tasks (pipeline e))) subsets'
                (instrument (pipeline e))) (records e), inr acc) ∧
    ∀ s, subsets' !! s = (λ m, m ∖ {[task_label]}) <$> labeled_subsets (pipeline e) !! s.
Proof.
  intros Hin. destruct e as [p r]. simpl in *.
  set (hosts := dom (filter (λ kv : string * gset string, task_label ∈ kv.2)
                       (labeled_subsets p))).
  destruct (remove_from_host_subsets task_label (elements hosts) p r)
    as (subsets' & Hrun & Hlook).
  { apply NoDup_elements. }
  { intros s Hs. apply elem_of_elements, elem_of_dom in Hs as [m Hm].
    apply map_lookup_filter_Some in Hm as [Hm Hl]. eauto. }
  exists subsets'. split.
  - unfold exclude_task.
    erewrite bind_ok; cycle 1.
    { apply try_except_ok. unfold query, findSubsetsWithLabel. simpl.
      rewrite decide_True by done. reflexivity. }
    fold hosts. erewrite bind_ok; [|exact Hrun].
    erewrite bind_ok; cycle 1.
    { apply try_except_ok, method_ok. unfold removeTask. simpl.
      rewrite decide_True by done. reflexivity. }
    reflexivity.
  - intros s. rewrite Hlook.
    destruct (labeled_subsets p !! s) as [m|] eqn:Hm; simpl; [|done].
    f_equal. destruct (decide (s ∈ elements hosts)) as [|Hs]; [done|].
    assert (task_label ∉ m); [|set_solver].
    intros Hl. apply Hs, elem_of_elements, elem_of_dom.
    exists m. by apply map_lookup_filter_Some.
Qed.

(** One iteration on a label that is not a task: nothing changes and the
    label is recorded. *)
Lemma exclude_task_absent task_label acc e :
  task_label ∉ dom (tasks (pipeline e)) →
  exclude_task task_label acc e = (e, inr (acc ∪ {[task_label]})).
Proof.
  intros Hin. unfold exclude_task.
  erewrite bind_ok; cycle 1.
  { apply try_except_caught. unfold query, findSubsetsWithLabel.
    rewrite decide_False by done. reflexivity. }
  erewrite bind_ok; [|reflexivity].
  erewrite bind_ok; cycle 1.
  { apply try_except_caught. unfold method, removeTask.
    rewrite decide_False by done. reflexivity. }
  reflexivity.
Qed.

(** The whole loop of lines 112-125. *)
Lemma exclusion_loop (labels : list string) acc e :
  NoDup labels →
  ∃ tasks' subsets',
    for_fold labels exclude_task acc e
    = (mkEnv (mkPipeline tasks' subsets' (instrument (pipeline e))) (records e),
       inr (acc ∪ (list_to_set labels ∖ dom (tasks (pipeline e))))) ∧
    (∀ k, tasks' !! k = if decide (k ∈ labels) then None else tasks (pipeline e) !! k) ∧
    (∀ s, subsets' !! s =
          (λ m, m ∖ (list_to_set labels ∩ dom (tasks (pipeline e))))
            <$> labeled_subsets (pipeline e) !! s).
Proof.
  revert acc e. induction labels as [|x labels IH]; intros acc e Hnd; simpl.
  - exists (tasks (pipeline e)), (labeled_subsets (pipeline e)). split; [|split].
    + destruct e as [[] ?]. simpl. unfold mret, M_ret. do 3 f_equal. set_solver.
    + done.
    + intros s. destruct (labeled_subsets (pipeline e) !! s); simpl; [|done].
      f_equal. set_solver.
  - apply NoDup_cons in Hnd as [Hx Hnd].
    destruct (decide (x ∈ dom (tasks (pipeline e)))) as [Hin|Hout].
    + destruct (exclude_task_present x acc e Hin) as (subsets1 & Hstep & Hsub1).
      rewrite (bind_ok _ _ _ _ _ Hstep).
      destruct (IH acc (mkEnv (mkPipeline (delete x (tasks (pipeline e))) subsets1
                                 (instrument (pipeline e))) (records e)) Hnd)
        as (tasks' & subsets' & Hrun & Htasks & Hsubsets).
      simpl in *. exists tasks', subsets'. split; [|split].
      * rewrite Hrun. do 2 f_equal. rewrite dom_delete_L.
        assert (x ∉ (list_to_set labels : gset string)) by (by rewrite elem_of_list_to_set).
        set_solver.
      * intros k. rewrite Htasks.
        destruct (decide (k = x)) as [->|Hne].
        -- rewrite decide_False by done. rewrite lookup_delete_eq.
           rewrite decide_True by left. done.
        -- rewrite lookup_delete_ne by done.
           destruct (decide (k ∈ labels)).
           ++ rewrite decide_True; [done|by right].
           ++ rewrite decide_False; [done|]. intros [?|?]%elem_of_cons; done.
      * intros s. rewrite Hsubsets, Hsub1.
        destruct (labeled_subsets (pipeline e) !! s); simpl; [|done].
        f_equal. rewrite dom_delete_L.
        apply set_eq. intros y. destruct (decide (y = x)); set_solver.
    + rewrite (bind_ok _ _ _ _ _ (exclude_task_absent x acc e Hout)).
      destruct (IH (acc ∪ {[x]}) e Hnd) as (tasks' & subsets' & Hrun & Htasks & Hsubsets).
      exists tasks', subsets'. split; [|split].
      * rewrite Hrun. do 2 f_equal. set_solver.
      * intros k. rewrite Htasks.
        destruct (decide (k ∈ labels)).
        -- rewrite decide_True; [done|by right].
        -- destruct (decide (k = x)) as [->|Hne].
           ++ rewrite decide_True by left. by apply not_elem_of_dom.
           ++ rewrite decide_False; [done|]. intros [?|?]%elem_of_cons; done.
      * intros s. rewrite Hsubsets.
        destruct (labeled_subsets (pipeline e) !! s); simpl; [|done].
        f_equal. set_solver.
Qed.

(** The whole pass of lines 108-132: it always returns; the tasks left are
    those not excluded, every subset loses the excluded labels that were
    tasks, and the excluded labels that were not tasks are reported. *)
Lemma remove_excluded_tasks_run excluded_tasks e :
  let missing := excluded_labels excluded_tasks ∖ dom (tasks (pipeline e)) in
  ∃ tasks' subsets',
    remove_excluded_tasks excluded_tasks e
    = (mkEnv (mkPipeline tasks' subsets' (instrument (pipeline e)))
         (records e ++
          if decide (0 < size missing) then
            [WarnNotExcluded (if decide (size missing = 1) then "Task" else "Tasks")
               (join ", " (sorted (elements missing)))]
          else []),
       inr tt) ∧
    (∀ k, tasks' !! k =
          if decide (k ∈ excluded_labels excluded_tasks) then None
          else tasks (pipeline e) !! k) ∧
    (∀ s, subsets' !! s =
          (λ m, m ∖ (excluded_labels excluded_tasks ∩ dom (tasks (pipeline e))))
            <$> labeled_subsets (pipeline e) !! s).
Proof.
  intros missing. unfold remove_excluded_tasks. fold (excluded_labels excluded_tasks).
  destruct (exclusion_loop (elements (excluded_labels excluded_tasks)) ∅ e)
    as (tasks' & subsets' & Hrun & Htasks & Hsubsets); [apply NoDup_elements|].
  rewrite list_to_set_elements_L in Hrun, Hsubsets.
  rewrite union_empty_l_L in Hrun. fold missing in Hrun.
  exists tasks', subsets'. split; [|split].
  - rewrite (bind_ok _ _ _ _ _ Hrun).
    destruct (decide (0 < size missing)); [reflexivity|].
    unfold mret, M_ret. simpl. by rewrite app_nil_r.
  - intros k. rewrite Htasks.
    destruct (decide (k ∈ excluded_labels excluded_tasks)).
    + rewrite decide_True; [done|by apply elem_of_elements].
    + rewrite decide_False; [done|by rewrite elem_of_elements].
  - exact Hsubsets.
Qed.

(** C9.  Every requested exclusion label that is not a task of the pipeline
    is recorded instead of raising: the pass always returns.  The labels
    not found are reported in one warning, "Task ..." for one label and
    "Tasks ..." for more, nothing when there is none; the pass returns
    normally, so the function goes on with the propagation. *)
Theorem exclusion_reports_missing_labels_once excluded_tasks e :
  let missing := excluded_labels excluded_tasks ∖ dom (tasks (pipeline e)) in
  let labels := join ", " (sorted (elements missing)) in
  ∃ p' report,
    remove_excluded_tasks excluded_tasks e = (mkEnv p' (records e ++ report), inr tt) ∧
    (size missing = 0 → report = []) ∧
    (size missing = 1 → report = [WarnNotExcluded "Task" labels]) ∧
    (1 < size missing → report = [WarnNotExcluded "Tasks" labels]).
Proof.
  intros missing labels.
  destruct (remove_excluded_tasks_run excluded_tasks e) as (tasks' & subsets' & Hrun & _).
  fold missing in Hrun. fold labels in Hrun.
  eexists _, _. split; [exact Hrun|].
  repeat split; intros Hsize.
  - rewrite decide_False; [done|lia].
  - rewrite decide_True by lia. by rewrite decide_True.
  - rewrite decide_True by lia. rewrite decide_False; [done|lia].
Qed.

(** C7.  On a pipeline whose subsets reference only tasks of the pipeline,
    the exclusion pass returns a pipeline with the same property: the
    excluded labels are gone from the tasks and from every subset, and the
    subsets have lost nothing else. *)
Theorem exclusion_keeps_subsets_closed excluded_tasks e :
  subsets_closed (pipeline e) →
  ∃ e',
    remove_excluded_tasks excluded_tasks e = (e', inr tt) ∧
    subsets_closed (pipeline e') ∧
    dom (tasks (pipeline e')) = dom (tasks (pipeline e)) ∖ excluded_labels excluded_tasks ∧
    (∀ subset,
       labeled_subsets (pipeline e') !! subset
       = (λ members, members ∖ excluded_labels excluded_tasks)
           <$> labeled_subsets (pipeline e) !! subset) ∧
    ∀ subset members, labeled_subsets (pipeline e') !! subset = Some members →
                      members ## excluded_labels excluded_tasks.
Proof.
  intros Hclosed.
  destruct (remove_excluded_tasks_run excluded_tasks e)
    as (tasks' & subsets' & Hrun & Htasks & Hsubsets).
  eexists. split; [exact Hrun|]. simpl.
  assert (∀ subset,
            subsets' !! subset
            = (λ members, members ∖ excluded_labels excluded_tasks)
                <$> labeled_subsets (pipeline e) !! subset) as Hexact.
  { intros subset. rewrite Hsubsets.
    destruct (labeled_subsets (pipeline e) !! subset) as [m|] eqn:Hm; [|done].
    simpl. f_equal. specialize (Hclosed _ _ Hm). set_solver. }
  assert (dom tasks' = dom (tasks (pipeline e)) ∖ excluded_labels excluded_tasks) as Hdom.
  { apply set_eq. intros k. rewrite elem_of_difference, !elem_of_dom, Htasks.
    destruct (decide (k ∈ excluded_labels excluded_tasks)).
    - split; [by intros [? ?]|tauto].
    - tauto. }
  assert (∀ subset members, subsets' !! subset = Some members →
            members ⊆ dom (tasks (pipeline e)) ∧
            members ## excluded_labels excluded_tasks) as Hmem.
  { intros subset members. rewrite Hsubsets.
    destruct (labeled_subsets (pipeline e) !! subset) as [m|] eqn:Hm; [|done].
    simpl. intros [= <-]. specialize (Hclosed _ _ Hm). set_solver. }
  split; [|split; [exact Hdom|split; [exact Hexact|]]].
  - intros subset members Hl. simpl in *. rewrite Hdom.
    destruct (Hmem _ _ Hl). set_solver.
  - intros subset members Hl. by destruct (Hmem _ _ Hl).
Qed.

(** ** Overrides *)

Lemma addConfigOverride_inv task_label key value p p' :
  addConfigOverride task_label key value p = inr p' →
  differ_at_task task_label p p' ∧
  task_label ∈ dom (tasks p) ∧
  configOverride p' task_label key = Some value ∧
  ∀ key', key' ≠ key →
          configOverride p' task_label key' = configOverride p task_label key'.
Proof.
  unfold addConfigOverride. destruct (tasks p !! task_label) as [ir|] eqn:Hir; [|done].
  intros [= <-]. unfold differ_at_task, configOverride. simpl.
  repeat split.
  - rewrite dom_insert_L. apply elem_of_dom_2 in Hir. set_solver.
  - intros l Hl. by rewrite lookup_insert_ne.
  - intros l. destruct (decide (task_label = l)) as [<-|Hne].
    + by rewrite lookup_insert_eq, Hir.
    + by rewrite lookup_insert_ne.
  - by apply elem_of_dom_2 in Hir.
  - rewrite lookup_insert_eq. simpl. by rewrite lookup_insert_eq.
  - intros key' Hne. rewrite lookup_insert_eq, Hir. simpl. by rewrite lookup_insert_ne.
Qed.

Lemma addConfigOverride_ok task_label key value p :
  task_label ∈ dom (tasks p) →
  ∃ p', addConfigOverride task_label key value p = inr p'.
Proof.
  intros [ir Hir]%elem_of_dom. unfold addConfigOverride. rewrite Hir. eauto.
Qed.

Lemma differ_at_task_refl task_label p : differ_at_task task_label p p.
Proof. by repeat split. Qed.

Lemma differ_at_task_trans task_label p1 p2 p3 :
  differ_at_task task_label p1 p2 → differ_at_task task_label p2 p3 →
  differ_at_task task_label p1 p3.
Proof.
  intros (Hd & Hs & Hi & Ht & Hk) (Hd' & Hs' & Hi' & Ht' & Hk').
  repeat split; try congruence.
  intros l Hl. rewrite Ht', Ht; done.
Qed.

Lemma differ_at_task_other task_label p p' l key :
  differ_at_task task_label p p' → l ≠ task_label →
  configOverride p' l key = configOverride p l key.
Proof. intros (_ & _ & _ & Ht & _) Hl. unfold configOverride. by rewrite Ht. Qed.

(** ** The propagation *)

Section propagation.

Variables (dataset_type_name prefix : string).

(** The key and the value of the override that line 168 adds for a field. *)
Let key (field : string) : string := "connections." +:+ field.
Let renamed (t : TaskDef) (field : string) : string :=
  prefix +:+ getattr_name (connections t) field.

(** A field is renamed when it is an attribute of the connections class and
    its dataset type name is among the injected types. *)
Let renames (t : TaskDef) (injected : gset string) (field : string) : Prop :=
  hasattr_ConnectionsClass (connections t) field = true ∧
  getattr_name (connections t) field ∈ injected.

Lemma rename_field_run t injected field e :
  label t ∈ dom (tasks (pipeline e)) →
  ∃ e', rename_field prefix t injected field e = (e', inr tt) ∧
        differ_at_task (label t) (pipeline e) (pipeline e') ∧
        (renames t injected field →
         configOverride (pipeline e') (label t) (key field) = Some (renamed t field)) ∧
        (∀ k, k ≠ key field →
              configOverride (pipeline e') (label t) k
              = configOverride (pipeline e) (label t) k) ∧
        (¬ renames t injected field → pipeline e' = pipeline e).
Proof.
  intros Hin. unfold rename_field, renames.
  destruct (hasattr_ConnectionsClass (connections t) field).
  - destruct (decide (getattr_name (connections t) field ∈ injected)) as [Hinj|Hinj].
    + destruct (addConfigOverride_ok (label t) (key field) (renamed t field) _ Hin)
        as [p' Hp'].
      exists (mkEnv p' (records e)). split; [by apply method_ok|].
      apply addConfigOverride_inv in Hp' as (Hd & _ & Hset & Hother). simpl.
      repeat split; try apply Hd; try done. tauto.
    + exists e. repeat split; try done. tauto.
  - eexists. split; [reflexivity|]. simpl. repeat split; try done. by intros [? ?].
Qed.

(** The loop of lines 164-176 over a list of fields. *)
Lemma rename_fields_run t injected (fields : list string) e :
  label t ∈ dom (tasks (pipeline e)) →
  ∃ e', for_each fields (rename_field prefix t injected) e = (e', inr tt) ∧
        differ_at_task (label t) (pipeline e) (pipeline e') ∧
        (∀ field, field ∈ fields → renames t injected field →
           configOverride (pipeline e') (label t) (key field) = Some (renamed t field)) ∧
        (∀ k, (∀ field, field ∈ fields → renames t injected field → k ≠ key field) →
              configOverride (pipeline e') (label t) k
              = configOverride (pipeline e) (label t) k).
Proof.
  revert e. induction fields as [|f fields IH]; intros e Hin; simpl.
  - exists e. repeat split; try done. intros ? []%elem_of_nil.
  - destruct (rename_field_run t injected f e Hin) as (e1 & Hf & Hd1 & Hset1 & Hoth1 & Hid1).
    rewrite (bind_ok _ _ _ _ _ Hf).
    destruct (IH e1) as (e' & Hrun & Hd & Hset & Hoth).
    { destruct Hd1 as [-> _]. done. }
    exists e'. split; [exact Hrun|]. split; [by eapply differ_at_task_trans|]. split.
    + intros field [->|Hfield]%elem_of_cons Hren; [|by apply Hset].
      destruct (decide (f ∈ fields)) as [Hff|Hff]; [by apply Hset|].
      rewrite Hoth; [by apply Hset1|].
      intros g Hg _ Heq. apply (inj (String.app "connections.")) in Heq. congruence.
    + intros k Hk. rewrite Hoth.
      * destruct (decide (renames t injected f)) as [Hren|Hren].
        -- apply Hoth1, Hk; [left|done].
        -- by rewrite (Hid1 Hren).
      * intros g Hg. apply Hk. by right.
Qed.

Lemma affected_size t l :
  0 < size (input_types_of t ∩ injected_types l) ↔ affected t l.
Proof.
  unfold affected. rewrite <- (leibniz_equiv_iff _ ∅), <- size_non_empty_iff. lia.
Qed.

(** An analysis task: one override, nothing else. *)
Lemma visit_analysis t l e :
  isAnalysisPipelineTask t = true →
  label t ∈ dom (tasks (pipeline e)) →
  ∃ p', addConfigOverride (label t) "connections.outputName"
          (prefix +:+ outputName t) (pipeline e) = inr p' ∧
        visit dataset_type_name prefix t l e = (mkEnv p' (records e), inr l).
Proof.
  intros Ha Hin. unfold visit. rewrite Ha.
  destruct (addConfigOverride_ok (label t) "connections.outputName"
              (prefix +:+ outputName t) _ Hin) as [p' Hp'].
  exists p'. split; [exact Hp'|].
  by rewrite (bind_ok _ _ _ _ _ (method_ok _ _ _ Hp')).
Qed.

(** Any other task. *)
Lemma visit_static t l e :
  isAnalysisPipelineTask t = false →
  label t ∈ dom (tasks (pipeline e)) →
  ∃ e', visit dataset_type_name prefix t l e
        = (e', inr (visit_locals dataset_type_name t l)) ∧
        differ_at_task (label t) (pipeline e) (pipeline e') ∧
        (affected t l →
         ∀ field, field ∈ inputs (connections t) ∪ outputs (connections t) →
                  renames t (injected_types l ∪ output_types_of t) field →
                  configOverride (pipeline e') (label t) (key field)
                  = Some (renamed t field)) ∧
        (¬ affected t l → e' = e).
Proof.
  intros Ha Hin. unfold visit, visit_locals. rewrite Ha.
  fold (input_types_of t) (output_types_of t).
  destruct (decide (0 < size (input_types_of t ∩ injected_types l))) as [Hsz|Hsz].
  - apply affected_size in Hsz as Haff. rewrite (decide_True _ _ Haff).
    destruct (rename_fields_run t (injected_types l ∪ output_types_of t)
                (elements (inputs (connections t) ∪ outputs (connections t))) e Hin)
      as (e' & Hrun & Hd & Hset & _).
    exists e'. rewrite (bind_ok _ _ _ _ _ Hrun). repeat split; try apply Hd; try done.
    intros _ field Hfield. apply Hset. by apply elem_of_elements.
  - assert (¬ affected t l) as Haff by (by rewrite <- affected_size).
    rewrite (decide_False _ _ Haff). exists e.
    split; [reflexivity|]. split; [apply differ_at_task_refl|]. done.
Qed.

(** Whenever an iteration returns, the local variables are those of
    [visit_locals]. *)
Lemma visit_inv t l e e' l' :
  visit dataset_type_name prefix t l e = (e', inr l') →
  l' = visit_locals dataset_type_name t l ∧ label t ∈ dom (tasks (pipeline e)) ∨
  l' = visit_locals dataset_type_name t l ∧ isAnalysisPipelineTask t = false.
Proof.
  unfold visit, visit_locals.
  destruct (isAnalysisPipelineTask t) eqn:Ha.
  - intros (e1 & [] & Hm & [= <- <-])%bind_inv.
    apply method_inv in Hm as [Hm _].
    apply addConfigOverride_inv in Hm as (_ & Hin & _). by left.
  - fold (input_types_of t) (output_types_of t). intros Hrun. right. split; [|done].
    destruct (decide (0 < size (input_types_of t ∩ injected_types l))) as [Hsz|Hsz].
    + apply affected_size in Hsz as Haff. rewrite (decide_True _ _ Haff).
      by apply bind_inv in Hrun as (e1 & [] & _ & [= <- <-]).
    + assert (¬ affected t l) as Haff by (by rewrite <- affected_size).
      rewrite (decide_False _ _ Haff). by injection Hrun as <- <-.
Qed.

End propagation.

Lemma visit_locals_injected dataset_type_name t l :
  injected_types l ⊆ injected_types (visit_locals dataset_type_name t l).
Proof.
  unfold visit_locals. destruct (isAnalysisPipelineTask t); [done|]. simpl.
  case_decide; set_solver.
Qed.

Lemma elem_of_get_dataset_type_names conns fields x :
  x ∈ _get_dataset_type_names conns fields ↔
  ∃ field, field ∈ fields ∧ getattr_name conns field = x.
Proof.
  unfold _get_dataset_type_names.
  apply (set_fold_ind_L
           (λ acc X, x ∈ acc ↔ ∃ field, field ∈ X ∧ getattr_name conns field = x)).
  - set_solver.
  - intros f X acc Hf IH. rewrite elem_of_union, IH, elem_of_singleton. split.
    + intros [(g & Hg & <-) | ->]; [exists g | exists f]; set_solver.
    + intros (g & [-> %elem_of_singleton | Hg]%elem_of_union & <-); [by right|].
      left. eauto.
Qed.

Lemma elem_of_fields_of k conns field :
  field ∈ fields_of k conns ↔ ∃ c, conns !! field = Some c ∧ kind c = k.
Proof.
  unfold fields_of. rewrite elem_of_dom. unfold is_Some.
  setoid_rewrite map_lookup_filter_Some. naive_solver.
Qed.

Lemma output_field t field c :
  connections t !! field = Some c → kind c = Output →
  field ∈ outputs (connections t) ∧
  getattr_name (connections t) field = name c ∧
  name c ∈ output_types_of t.
Proof.
  intros Hc Hk.
  assert (field ∈ outputs (connections t)) as Hf by (apply elem_of_fields_of; eauto).
  assert (getattr_name (connections t) field = name c) as Hn.
  { unfold getattr_name. by rewrite Hc. }
  repeat split; [done..|].
  apply elem_of_get_dataset_type_names. eauto.
Qed.

(** When the seed is among the names of no task other than analysis tasks,
    the loop returns without having seen the seed; it has changed nothing
    but the [connections.outputName] override of the analysis tasks. *)
Lemma propagate_seed_absent dataset_type_name prefix order e :
  (∀ t, t ∈ order → label t ∈ dom (tasks (pipeline e))) →
  (∀ t, t ∈ order → isAnalysisPipelineTask t = false →
        (dataset_type_name ∉ input_types_of t) ∧ (dataset_type_name ∉ output_types_of t)) →
  ∃ e' l',
    propagate dataset_type_name prefix order e = (e', inr l') ∧
    (dataset_type_name ∉ all_connection_type_names l') ∧
    injected_types l' = {[dataset_type_name]} ∧
    precursor_injection_task_labels l' = ∅ ∧
    records e' = records e ∧
    differ_in_outputName
      (label <$> filter (λ t, isAnalysisPipelineTask t = true) order)
      (pipeline e) (pipeline e').
Proof.
  intros Hlabels Habsent.
  set (labels := label <$> filter (λ t, isAnalysisPipelineTask t = true) order).
  destruct (for_fold_total
              (λ l e1, (dataset_type_name ∉ all_connection_type_names l) ∧
                       injected_types l = {[dataset_type_name]} ∧
                       precursor_injection_task_labels l = ∅ ∧
                       records e1 = records e ∧
                       differ_in_outputName labels (pipeline e) (pipeline e1))
              order (visit dataset_type_name prefix)
              (mkLocals ∅ {[dataset_type_name]} ∅) e) as (l' & e' & Hrun & HP).
  - intros t l e1 Ht (Hall & Hinj & Hprec & Hrec & Hd).
    assert (label t ∈ dom (tasks (pipeline e1))) as Hin.
    { destruct Hd as (-> & _). by apply Hlabels. }
    destruct (isAnalysisPipelineTask t) eqn:Ha.
    + destruct (visit_analysis dataset_type_name prefix t l e1 Ha Hin) as (p' & Hp' & Hv).
      exists l, (mkEnv p' (records e1)). split; [exact Hv|].
      refine (conj Hall (conj Hinj (conj Hprec (conj Hrec _)))). simpl.
      apply addConfigOverride_inv in Hp' as (Hd1 & _ & _ & Hkeys).
      destruct Hd as (Hdom & Hsub & Hins & Hother & Hcfg & Hk).
      destruct Hd1 as (Hdom1 & Hsub1 & Hins1 & Hother1 & Hk1).
      repeat split; try congruence.
      * intros k Hnotin. rewrite Hother1, Hother; [done..|].
        intros ->. apply Hnotin. unfold labels.
        apply list_elem_of_fmap. exists t. split; [done|].
        by apply list_elem_of_filter.
      * intros k key' Hkey. rewrite <- Hcfg by done.
        destruct (decide (k = label t)) as [->|Hne]; [by apply Hkeys|].
        unfold configOverride. by rewrite Hother1.
    + destruct (Habsent t Ht Ha) as [Hi Ho].
      assert (¬ affected t l) as Haff.
      { unfold affected. rewrite Hinj. intros Hne. apply Hne. set_solver. }
      destruct (visit_static dataset_type_name prefix t l e1 Ha Hin)
        as (e2 & Hv & _ & _ & Hsame).
      rewrite (Hsame Haff) in Hv.
      exists (visit_locals dataset_type_name t l), e1. split; [exact Hv|].
      unfold visit_locals. rewrite Ha. simpl.
      rewrite (decide_False _ _ Haff), (decide_False _ _ Ho).
      refine (conj _ (conj Hinj (conj Hprec (conj Hrec Hd)))). set_solver.
  - simpl. refine (conj _ (conj eq_refl (conj eq_refl (conj eq_refl _)))).
    + set_solver.
    + by repeat split.
  - exists e', l'. by destruct HP as (? & ? & ? & ? & ?).
Qed.


(** C6.  During one propagation pass the set of injected types never
    shrinks: its value after any initial part of the traversal contains the
    seed and is included in its value after any longer part. *)
Theorem injected_types_monotone dataset_type_name prefix visited more e e1 l1 e2 l2 :
  propagate dataset_type_name prefix visited e = (e1, inr l1) →
  propagate dataset_type_name prefix (visited ++ more) e = (e2, inr l2) →
  dataset_type_name ∈ injected_types l1 ∧ injected_types l1 ⊆ injected_types l2.
Proof.
  unfold propagate. intros H1 H2. split.
  - revert H1. apply (for_fold_inv (λ l _, dataset_type_name ∈ injected_types l)).
    + intros t la ea lb eb _ Hla Hstep.
      apply visit_inv in Hstep as [[-> _]|[-> _]];
        by apply (visit_locals_injected dataset_type_name).
    + simpl. set_solver.
  - rewrite for_fold_app, H1 in H2. revert H2.
    apply (for_fold_inv (λ l _, injected_types l1 ⊆ injected_types l)); [|done].
    intros t la ea lb eb _ Hla Hstep.
    apply visit_inv in Hstep as [[-> _]|[-> _]];
      (etrans; [exact Hla|apply visit_locals_injected]).
Qed.

(** ** The merge *)

Lemma configOverride_addConfigOverride task_label key value p p' l k :
  addConfigOverride task_label key value p = inr p' →
  configOverride p' l k =
  if decide (l = task_label ∧ k = key) then Some value else configOverride p l k.
Proof.
  intros H. apply addConfigOverride_inv in H as (Hd & _ & Hset & Hother).
  case_decide as Hlk.
  - by destruct Hlk as [-> ->].
  - destruct (decide (l = task_label)) as [->|Hl].
    + apply Hother. naive_solver.
    + by eapply differ_at_task_other.
Qed.

Lemma addLabelToSubset_inv subset task_label p p' :
  addLabelToSubset subset task_label p = inr p' →
  tasks p' = tasks p ∧
  ∃ members, labeled_subsets p !! subset = Some members ∧
             labeled_subsets p' = <[subset := members ∪ {[task_label]}]> (labeled_subsets p).
Proof.
  unfold addLabelToSubset. case_decide; [|done].
  destruct (labeled_subsets p !! subset) as [m|] eqn:Hm; [|done].
  intros [= <-]. simpl. eauto.
Qed.

Lemma subsets_grow_refl p : subsets_grow p p.
Proof. split; [done|]. intros s m Hm. eauto. Qed.

Lemma subsets_grow_trans p1 p2 p3 :
  subsets_grow p1 p2 → subsets_grow p2 p3 → subsets_grow p1 p3.
Proof.
  intros [Ht H12] [Ht' H23]. split; [congruence|].
  intros s m Hm. destruct (H12 _ _ Hm) as (m2 & Hm2 & Hsub).
  destruct (H23 _ _ Hm2) as (m3 & Hm3 & Hsub'). exists m3. split; [done|]. set_solver.
Qed.

Lemma addLabelToSubset_grow subset task_label p p' :
  addLabelToSubset subset task_label p = inr p' → subsets_grow p p'.
Proof.
  intros (Ht & m & Hm & Hs)%addLabelToSubset_inv. split; [done|].
  intros s m0 Hm0. rewrite Hs. destruct (decide (subset = s)) as [<-|Hne].
  - rewrite lookup_insert_eq. exists (m ∪ {[task_label]}). split; [done|].
    rewrite Hm in Hm0. injection Hm0 as <-. set_solver.
  - rewrite lookup_insert_ne by done. eauto.
Qed.

Lemma addLabelToSubset_follows subset task_label injection_label p p' :
  addLabelToSubset subset injection_label p = inr p' →
  follows task_label injection_label p → follows task_label injection_label p'.
Proof.
  intros (Ht & m & Hm & Hs)%addLabelToSubset_inv Hf s m'. rewrite Hs.
  destruct (decide (subset = s)) as [<-|Hne].
  - rewrite lookup_insert_eq. intros [= <-] _. set_solver.
  - rewrite lookup_insert_ne by done. apply Hf.
Qed.

(** The inner loop of lines 232-233. *)
Lemma add_to_subsets_follows task_label injection_label (subsets : list string) e e' :
  for_each subsets (λ subset, method (addLabelToSubset subset injection_label)) e
  = (e', inr tt) →
  (∀ s m, labeled_subsets (pipeline e) !! s = Some m → task_label ∈ m →
          injection_label ∈ m ∨ s ∈ subsets) →
  follows task_label injection_label (pipeline e').
Proof.
  revert e. induction subsets as [|x subsets IH]; intros e Hrun Hpending; simpl in Hrun.
  - injection Hrun as <-. intros s m Hm Hl.
    destruct (Hpending s m Hm Hl) as [?|[]%elem_of_nil]. done.
  - apply bind_inv in Hrun as (e1 & [] & Hx & Hrest).
    apply (IH e1 Hrest). intros s m1 Hm1 Hl.
    apply method_inv in Hx as [Hx _].
    apply addLabelToSubset_inv in Hx as (_ & m & Hm & Hs).
    rewrite Hs in Hm1. destruct (decide (x = s)) as [<-|Hne].
    + rewrite lookup_insert_eq in Hm1. injection Hm1 as <-. left. set_solver.
    + rewrite lookup_insert_ne in Hm1 by done.
      destruct (Hpending s m1 Hm1 Hl) as [?|[?|?]%elem_of_cons]; [by left|done|by right].
Qed.

Lemma add_to_subsets_inv (P : Pipeline → Prop) injection_label (subsets : list string) e e' :
  (∀ s p p', addLabelToSubset s injection_label p = inr p' → P p → P p') →
  P (pipeline e) →
  for_each subsets (λ subset, method (addLabelToSubset subset injection_label)) e
  = (e', inr tt) →
  P (pipeline e').
Proof.
  intros Hstep HP. apply (for_each_inv (λ e, P (pipeline e))); [|done].
  intros s e1 e2 _ HP1 [Hm _]%method_inv. by eapply Hstep.
Qed.

(** Lines 230-233 for one precursor label. *)
Lemma update_subsets_body_inv (P : Pipeline → Prop) injection_label label e e' :
  (∀ s p p', addLabelToSubset s injection_label p = inr p' → P p → P p') →
  P (pipeline e) →
  (precursor_subsets ← query (findSubsetsWithLabel label);
   for_each (elements precursor_subsets)
     (λ subset, method (addLabelToSubset subset injection_label))) e = (e', inr tt) →
  P (pipeline e').
Proof.
  intros Hstep HP (e1 & hs & Hq & Hrun)%bind_inv.
  unfold query in Hq. injection Hq as <- _.
  by eapply add_to_subsets_inv.
Qed.

Lemma update_subsets_inv (P : Pipeline → Prop) injection_label precursors e e' :
  (∀ s p p', addLabelToSubset s injection_label p = inr p' → P p → P p') →
  P (pipeline e) →
  update_subsets injection_label precursors e = (e', inr tt) →
  P (pipeline e').
Proof.
  intros Hstep HP. unfold update_subsets.
  apply (for_each_inv (λ e, P (pipeline e))); [|done].
  intros l e1 e2 _ HP1. by apply update_subsets_body_inv.
Qed.

(** After lines 230-233 every subset that holds a precursor label holds
    the label of the injection task. *)
Lemma update_subsets_follows injection_label precursors task_label e e' :
  task_label ∈ precursors →
  update_subsets injection_label precursors e = (e', inr tt) →
  follows task_label injection_label (pipeline e').
Proof.
  intros Hin. unfold update_subsets.
  apply (for_each_establish (λ e, follows task_label injection_label (pipeline e))
           _ _ task_label).
  - by apply elem_of_elements.
  - intros e1 e2 (e3 & hs & Hq & Hrun)%bind_inv.
    unfold query, findSubsetsWithLabel in Hq. case_decide; [|done].
    injection Hq as <- <-.
    eapply add_to_subsets_follows; [exact Hrun|].
    intros s m Hm Hl. right. apply elem_of_elements, elem_of_dom.
    exists m. by apply map_lookup_filter_Some.
  - intros l e1 e2 _ Hf. apply update_subsets_body_inv; [|done].
    intros s p p' Hadd. by eapply addLabelToSubset_follows.
Qed.

Section merge.

Variable fromFile : string → Pipeline.
Variable toExpandedPipeline : Pipeline → list TaskDef.
Variables (dataset_type_name prefix : string) (exclude_subsets : bool).
Variable precursors : gset string.

(** Lines 221-233, the body of the loop over the injection tasks. *)
Let injection_body (injection_taskDef : TaskDef) : M unit :=
  method (addConfigOverride (label injection_taskDef)
            "connections.input_exposure" dataset_type_name) ;;
  method (addConfigOverride (label injection_taskDef)
            "connections.output_exposure" (prefix +:+ dataset_type_name)) ;;
  if negb exclude_subsets
  then update_subsets (label injection_taskDef) precursors
  else mret tt.

Lemma injection_body_inv t e e' :
  injection_body t e = (e', inr tt) →
  ∃ p1 p2,
    addConfigOverride (label t) "connections.input_exposure" dataset_type_name (pipeline e)
    = inr p1 ∧
    addConfigOverride (label t) "connections.output_exposure"
      (prefix +:+ dataset_type_name) p1 = inr p2 ∧
    (if negb exclude_subsets
     then update_subsets (label t) precursors
     else (mret tt : M unit)) (mkEnv p2 (records e)) = (e', inr tt).
Proof.
  intros (e1 & [] & [H1 Hr1]%method_inv & (e2 & [] & [H2 Hr2]%method_inv & H3)%bind_inv)%bind_inv.
  exists (pipeline e1), (pipeline e2). split; [done|]. split; [done|].
  destruct e2 as [p2 r2]. simpl in *. congruence.
Qed.

Lemma injection_body_tasks t (e e' : Env) :
  (if negb exclude_subsets
   then update_subsets (label t) precursors
   else (mret tt : M unit)) e = (e', inr tt) →
  tasks (pipeline e') = tasks (pipeline e).
Proof.
  destruct (negb exclude_subsets).
  - apply (update_subsets_inv (λ p, tasks p = tasks (pipeline e))); [|done].
    intros s p p' [Ht _]%addLabelToSubset_inv. congruence.
  - by intros [= <-].
Qed.

Lemma merge_injection_pipeline_inv injection_pipeline e e' :
  merge_injection_pipeline fromFile toExpandedPipeline dataset_type_name prefix
    exclude_subsets precursors injection_pipeline e = (e', inr tt) →
  len (load fromFile injection_pipeline) = 1 ∧
  ∃ p1, mergePipeline (load fromFile injection_pipeline) (pipeline e) = inr p1 ∧
        for_each (toExpandedPipeline (load fromFile injection_pipeline)) injection_body
          (mkEnv p1 (records e)) = (e', inr tt).
Proof.
  unfold merge_injection_pipeline. case_decide as Hlen; [done|].
  intros (e1 & [] & [Hm Hr]%method_inv & Hloop)%bind_inv.
  split; [lia|]. exists (pipeline e1). split; [done|].
  destruct e1 as [p1 r1]. simpl in *. by subst r1.
Qed.

(** The two boundary overrides of the injection task, once made, stay. *)
Lemma injection_overrides_stay t injection_pipeline e e' :
  merge_injection_pipeline fromFile toExpandedPipeline dataset_type_name prefix
    exclude_subsets precursors injection_pipeline e = (e', inr tt) →
  t ∈ toExpandedPipeline (load fromFile injection_pipeline) →
  configOverride (pipeline e') (label t) "connections.input_exposure"
  = Some dataset_type_name ∧
  configOverride (pipeline e') (label t) "connections.output_exposure"
  = Some (prefix +:+ dataset_type_name).
Proof.
  intros (_ & p1 & _ & Hloop)%merge_injection_pipeline_inv Ht. revert Hloop.
  assert (∀ u e1 e2,
            injection_body u e1 = (e2, inr tt) →
            ∀ l k,
              configOverride (pipeline e2) l k =
              if decide (l = label u ∧ k = "connections.output_exposure")
              then Some (prefix +:+ dataset_type_name)
              else if decide (l = label u ∧ k = "connections.input_exposure")
                   then Some dataset_type_name
                   else configOverride (pipeline e1) l k) as Hbody.
  { intros u e1 e2 (p2 & p3 & H1 & H2 & H3)%injection_body_inv l k.
    apply injection_body_tasks in H3. simpl in H3.
    assert (configOverride (pipeline e2) l k = configOverride p3 l k) as ->
      by (unfold configOverride; by rewrite H3).
    rewrite (configOverride_addConfigOverride _ _ _ _ _ l k H2).
    by rewrite (configOverride_addConfigOverride _ _ _ _ _ l k H1). }
  apply (for_each_establish
           (λ e, configOverride (pipeline e) (label t) "connections.input_exposure"
                 = Some dataset_type_name ∧
                 configOverride (pipeline e) (label t) "connections.output_exposure"
                 = Some (prefix +:+ dataset_type_name)) _ _ t).
  - exact Ht.
  - intros e1 e2 Hrun. rewrite !(Hbody _ _ _ Hrun).
    rewrite decide_False by (by intros [_ ?]). rewrite decide_True by done.
    by rewrite decide_True.
  - intros u e1 e2 _ [Hi Ho] Hrun. rewrite !(Hbody _ _ _ Hrun), Hi, Ho.
    split; repeat case_decide; naive_solver.
Qed.

End merge.

(** C3.  After a merge that returned, the injection task has the override
    of [connections.input_exposure] to the seed dataset type name and the
    override of [connections.output_exposure] to the prefix followed by the
    seed: its two boundary bindings resolve to these names whatever names
    it declared and whatever overrides it carried. *)
Theorem injection_task_boundary_rewritten fromFile toExpandedPipeline
    dataset_type_name prefix exclude_subsets precursors injection_pipeline t e e' :
  merge_injection_pipeline fromFile toExpandedPipeline dataset_type_name prefix
    exclude_subsets precursors injection_pipeline e = (e', inr tt) →
  t ∈ toExpandedPipeline (load fromFile injection_pipeline) →
  configOverride (pipeline e') (label t) "connections.input_exposure"
  = Some dataset_type_name ∧
  configOverride (pipeline e') (label t) "connections.output_exposure"
  = Some (prefix +:+ dataset_type_name) ∧
  ∀ declared,
    effectiveName (pipeline e') (label t) "input_exposure" declared = dataset_type_name ∧
    effectiveName (pipeline e') (label t) "output_exposure" declared
    = prefix +:+ dataset_type_name.
Proof.
  intros Hrun Ht.
  destruct (injection_overrides_stay _ _ _ _ _ _ _ _ _ _ Hrun Ht) as [Hi Ho].
  split; [exact Hi|]. split; [exact Ho|].
  intros declared. unfold effectiveName. simpl.
  change ("connections." +:+ "input_exposure") with "connections.input_exposure".
  change ("connections." +:+ "output_exposure") with "connections.output_exposure".
  by rewrite Hi, Ho.
Qed.

(** C5.  When the injection task is merged and the subsets are maintained,
    every subset that held a precursor label before the merge holds the
    label of the injection task afterwards and has lost no member; every
    subset that holds a precursor label after the merge holds the label of
    the injection task; and adding the label to a subset that already holds
    it leaves the pipeline as it is. *)
Theorem precursor_subsets_gain_injection_task fromFile toExpandedPipeline
    dataset_type_name prefix precursors injection_pipeline t e e' :
  toExpandedPipeline (load fromFile injection_pipeline) = [t] →
  merge_injection_pipeline fromFile toExpandedPipeline dataset_type_name prefix
    false precursors injection_pipeline e = (e', inr tt) →
  (∀ task_label subset members,
     task_label ∈ precursors →
     labeled_subsets (pipeline e) !! subset = Some members →
     task_label ∈ members →
     ∃ members', labeled_subsets (pipeline e') !! subset = Some members' ∧
                 members ⊆ members' ∧ label t ∈ members') ∧
  (∀ task_label, task_label ∈ precursors → follows task_label (label t) (pipeline e')) ∧
  (∀ subset members p,
     labeled_subsets p !! subset = Some members →
     label t ∈ members → label t ∈ dom (tasks p) →
     addLabelToSubset subset (label t) p = inr p).
Proof.
  intros Hexp (_ & p1 & Hmerge & Hloop)%merge_injection_pipeline_inv.
  rewrite Hexp in Hloop. cbn [for_each] in Hloop.
  apply bind_inv in Hloop as (e1 & [] & Hbody & [= <-]).
  apply injection_body_inv in Hbody as (p2 & p3 & H1 & H2 & H3). simpl in H3.
  assert (∀ task_label, task_label ∈ precursors →
            follows task_label (label t) (pipeline e1)) as Hfollows.
  { intros task_label Hin. by eapply update_subsets_follows. }
  assert (subsets_grow p3 (pipeline e1)) as Hgrow.
  { revert H3. apply (update_subsets_inv (subsets_grow p3)); [|apply subsets_grow_refl].
    intros s p p' Hadd Hg. eapply subsets_grow_trans; [exact Hg|].
    by eapply addLabelToSubset_grow. }
  split; [|split; [exact Hfollows|]].
  - intros task_label subset members Hin Hm Hl.
    assert (labeled_subsets p3 !! subset = Some members) as Hm3.
    { apply addConfigOverride_inv in H2 as ((_ & -> & _) & _).
      apply addConfigOverride_inv in H1 as ((_ & -> & _) & _).
      unfold mergePipeline in Hmerge. case_decide; [|done].
      injection Hmerge as <-. simpl. by apply lookup_union_Some_l. }
    destruct Hgrow as [_ Hgrow]. destruct (Hgrow _ _ Hm3) as (m' & Hm' & Hsub).
    exists m'. split; [done|]. split; [done|].
    eapply Hfollows; [exact Hin|exact Hm'|]. set_solver.
  - intros subset members p Hm Hl Hdom. unfold addLabelToSubset.
    rewrite decide_True by done. rewrite Hm.
    replace (members ∪ {[label t]}) with members by set_solver.
    rewrite insert_id by done. by destruct p.
Qed.

(** ** The whole function *)

Section whole_function.

Variable fromFile : string → Pipeline.
Variable toExpandedPipeline : Pipeline → list TaskDef.

(** The arity check of lines 214-217, when the merge step is entered: a
    pipeline without tasks or with several tasks raises and changes
    nothing. *)
Lemma merge_arity_check dataset_type_name prefix exclude_subsets precursors
    injection_pipeline e :
  len (load fromFile injection_pipeline) ≠ 1 →
  merge_injection_pipeline fromFile toExpandedPipeline dataset_type_name prefix
    exclude_subsets precursors injection_pipeline e
  = (e, inl (RuntimeError (WrongTaskCount (len (load fromFile injection_pipeline))))).
Proof.
  intros Hlen. unfold merge_injection_pipeline. by rewrite decide_True.
Qed.

(** Lines 230-233 return when the precursor labels and the injection label
    are tasks of the pipeline. *)
Lemma update_subsets_total injection_label precursors e :
  injection_label ∈ dom (tasks (pipeline e)) →
  precursors ⊆ dom (tasks (pipeline e)) →
  ∃ e', update_subsets injection_label precursors e = (e', inr tt).
Proof.
  intros Hinj Hprec.
  set (P := λ e1 : Env,
         tasks (pipeline e1) = tasks (pipeline e) ∧
         dom (labeled_subsets (pipeline e1)) = dom (labeled_subsets (pipeline e))).
  destruct (for_each_total P (elements precursors)
              (λ label,
                 precursor_subsets ← query (findSubsetsWithLabel label);
                 for_each (elements precursor_subsets)
                   (λ subset, method (addLabelToSubset subset injection_label))) e)
    as (e' & Hrun & _); [|done|by exists e'].
  intros lb e1 Hlb%elem_of_elements [Ht Hs].
  set (hs := dom (filter (λ kv : string * gset string, lb ∈ kv.2)
                    (labeled_subsets (pipeline e1)))).
  assert (query (findSubsetsWithLabel lb) e1 = (e1, inr hs)) as Hq.
  { unfold query, findSubsetsWithLabel. rewrite decide_True; [done|].
    rewrite Ht. by apply Hprec. }
  rewrite (bind_ok _ _ _ _ _ Hq).
  apply (for_each_total P); [|done].
  intros sb e2 Hsb%elem_of_elements [Ht2 Hs2].
  assert (sb ∈ dom (labeled_subsets (pipeline e2))) as [m Hm]%elem_of_dom.
  { rewrite Hs2, <- Hs. revert Hsb. unfold hs. apply subseteq_dom, map_filter_subseteq. }
  eexists. split.
  - apply method_ok. unfold addLabelToSubset. rewrite Ht2, decide_True by done.
    rewrite Hm. reflexivity.
  - split; simpl; [done|]. rewrite dom_insert_L, <- Hs2.
    apply elem_of_dom_2 in Hm. set_solver.
Qed.

(** With exactly one task of a fresh label the merge step returns. *)
Lemma merge_single_task_returns dataset_type_name prefix exclude_subsets precursors
    injection_pipeline t e :
  let pipeline2 := load fromFile injection_pipeline in
  len pipeline2 = 1 →
  toExpandedPipeline pipeline2 = [t] →
  label t ∈ dom (tasks pipeline2) →
  dom (tasks (pipeline e)) ∩ dom (tasks pipeline2) = ∅ →
  precursors ⊆ dom (tasks (pipeline e)) →
  ∃ e', merge_injection_pipeline fromFile toExpandedPipeline dataset_type_name prefix
          exclude_subsets precursors injection_pipeline e = (e', inr tt).
Proof.
  intros pipeline2 Hlen Hexp Ht Hfresh Hprec.
  unfold merge_injection_pipeline. fold pipeline2.
  rewrite decide_False by (by intros ?). rewrite Hexp. cbn [for_each].
  erewrite bind_ok; cycle 1.
  { apply method_ok. unfold mergePipeline. by rewrite decide_True. }
  set (p1 := mkPipeline _ _ _).
  assert (label t ∈ dom (tasks p1)) as Hin1.
  { unfold p1. simpl. rewrite dom_union_L. set_solver. }
  destruct (addConfigOverride_ok (label t) "connections.input_exposure"
              dataset_type_name p1 Hin1) as [p2 H2].
  pose proof (addConfigOverride_inv _ _ _ _ _ H2) as ((Hd2 & _) & _).
  assert (label t ∈ dom (tasks p2)) as Hin2 by (by rewrite Hd2).
  destruct (addConfigOverride_ok (label t) "connections.output_exposure"
              (prefix +:+ dataset_type_name) p2 Hin2) as [p3 H3].
  pose proof (addConfigOverride_inv _ _ _ _ _ H3) as ((Hd3 & _) & _).
  assert (∃ e', (if negb exclude_subsets
                 then update_subsets (label t) precursors
                 else (mret tt : M unit)) (mkEnv p3 (records e)) = (e', inr tt))
    as [e' He'].
  { destruct (negb exclude_subsets); [|by eexists].
    apply update_subsets_total; simpl.
    - by rewrite Hd3, Hd2.
    - rewrite Hd3, Hd2. unfold p1. simpl. rewrite dom_union_L. set_solver. }
  exists e'. erewrite bind_ok; [reflexivity|].
  erewrite bind_ok; [|by apply method_ok].
  erewrite bind_ok; [|by apply method_ok]. exact He'.
Qed.

(** A pipeline object without tasks is false in a condition, so that
    supplying one is the same as supplying no injection pipeline. *)
Lemma empty_injection_pipeline_as_none dataset_type_name reference_pipeline pipeline2
    exclude_subsets excluded_tasks prefix instrument :
  len pipeline2 = 0 →
  make_injection_pipeline fromFile toExpandedPipeline dataset_type_name reference_pipeline
    (Some (IsPipeline pipeline2)) exclude_subsets excluded_tasks prefix instrument
  = make_injection_pipeline fromFile toExpandedPipeline dataset_type_name reference_pipeline
      None exclude_subsets excluded_tasks prefix instrument.
Proof.
  intros Hlen. unfold make_injection_pipeline, run.
  generalize (mkEnv (load fromFile reference_pipeline) []). intros e0.
  rewrite !bind_run. destruct (add_instrument instrument e0) as [e1 [err|[]]]; [done|].
  rewrite !bind_run. destruct (remove_excluded_tasks excluded_tasks e1) as [e2 [err|[]]]; [done|].
  rewrite !bind_run.
  destruct (determine_injected_types toExpandedPipeline dataset_type_name prefix e2)
    as [e3 [err|l]]; [done|].
  rewrite !bind_run. unfold infer_injection_pipeline, truthy. rewrite Hlen. simpl.
  destruct (inferred_location dataset_type_name) as [location|]; [done|].
  rewrite !bind_run. simpl. unfold truthy. rewrite ?Hlen. simpl.
  rewrite ?Hlen. reflexivity.
Qed.

End whole_function.

(** ** The reference collaborators *)

Lemma orderPipeline_Permutation fuel pending : orderPipeline fuel pending ≡ₚ pending.
Proof.
  revert pending. induction fuel as [|fuel IH]; intros pending; simpl; [done|].
  destruct (list_find (ready pending) pending) as [[i t]|] eqn:Hfind; [|done].
  apply list_find_Some in Hfind as (Hi & _).
  rewrite IH. symmetry. by apply delete_Permutation.
Qed.

Lemma elem_of_expand classes p t : t ∈ expand classes p → label t ∈ dom (tasks p).
Proof.
  unfold expand. rewrite orderPipeline_Permutation.
  intros ([l ir] & -> & Hin)%list_elem_of_fmap. simpl.
  apply elem_of_map_to_list in Hin. by apply elem_of_dom_2 in Hin.
Qed.

(** ** The claims on the propagation and on the whole function *)

(** C1, the claim as stated fails: the task [loose] reads [x], which is in
    the set of injected types when the task is visited, and its output
    connection [out] is not renamed, because the field is not an attribute
    of the connections class; a warning is logged instead. *)
Lemma loose_output_not_renamed :
  affected task_loose (initial_locals "x") ∧
  (∃ c, connections task_loose !! "out" = Some c ∧ kind c = Output ∧ name c = "y") ∧
  ∃ e' l',
    visit "x" "injected_" task_loose (initial_locals "x") (start loose_pipeline)
    = (e', inr l') ∧
    configOverride (pipeline e') "loose" "connections.out" = None ∧
    records e' = [WarnDynamicConnection "out" "loose"].
Proof.
  split; [by apply (bool_decide_unpack _); vm_compute|].
  split; [eexists; by vm_compute|].
  eexists _, _. split; [vm_compute; reflexivity|]. by vm_compute.
Qed.

(** C1, amended.  For every visited task that is not an analysis task and
    every output connection of it that is an attribute of its connections
    class: the visit returns; when some input dataset type name of the task
    is among the injected types at that point the connection has the
    override to the prefix followed by its name, and otherwise the visit
    leaves the pipeline as it is (no override at all).  In the chain of A,
    B, C writing and reading [x], [y], [z] with a sibling D reading [w],
    visited in any dependency order and seeded on [x], the outputs [y] of B
    and [z] of C are renamed, as are the inputs of B and C, and A and D are
    left untouched; the injected types are [x], [y], [z] and the only
    precursor is A. *)
Theorem static_outputs_renamed_iff_affected :
  (∀ dataset_type_name prefix t l e field c,
     isAnalysisPipelineTask t = false →
     label t ∈ dom (tasks (pipeline e)) →
     connections t !! field = Some c → kind c = Output → onConnectionsClass c = true →
     ∃ e',
       visit dataset_type_name prefix t l e = (e', inr (visit_locals dataset_type_name t l)) ∧
       (affected t l →
        configOverride (pipeline e') (label t) ("connections." +:+ field)
        = Some (prefix +:+ name c)) ∧
       (¬ affected t l → e' = e)) ∧
  (∀ order,
     order ≡ₚ [task_A; task_B; task_C; task_D] → dependency_order order →
     ∃ e' l',
       propagate "x" "injected_" order (start chain_pipeline) = (e', inr l') ∧
       configOverride (pipeline e') "B" "connections.out" = Some "injected_y" ∧
       configOverride (pipeline e') "C" "connections.out" = Some "injected_z" ∧
       configOverride (pipeline e') "B" "connections.in" = Some "injected_x" ∧
       configOverride (pipeline e') "C" "connections.in" = Some "injected_y" ∧
       tasks (pipeline e') !! "A" = tasks chain_pipeline !! "A" ∧
       tasks (pipeline e') !! "D" = tasks chain_pipeline !! "D" ∧
       injected_types l' = {[ "x"; "y"; "z" ]} ∧
       precursor_injection_task_labels l' = {[ "A" ]}).
Proof.
  split.
  - intros dataset_type_name prefix t l e field c Ha Hin Hc Hk Hcls.
    destruct (visit_static dataset_type_name prefix t l e Ha Hin)
      as (e' & Hrun & _ & Hset & Hsame).
    exists e'. split; [exact Hrun|]. split; [|exact Hsame].
    intros Haff. destruct (output_field t field c Hc Hk) as (Hf & Hn & Ho).
    rewrite <- Hn. apply (Hset Haff); [set_solver|]. split.
    + unfold hasattr_ConnectionsClass. by rewrite Hc.
    + rewrite Hn. set_solver.
  - intros order Hperm Hdep.
    assert (Forall (λ order, dependency_order order → chain_renamed order = true)
              (permutations [task_A; task_B; task_C; task_D])) as Hall.
    { by apply (bool_decide_unpack _); vm_compute. }
    rewrite Forall_forall in Hall.
    specialize (Hall order (proj2 (permutations_Permutation _ _) (symmetry Hperm)) Hdep).
    unfold chain_renamed in Hall.
    destruct (propagate "x" "injected_" order (start chain_pipeline)) as [e' [err|l']];
      [done|].
    apply bool_decide_eq_true in Hall. by exists e', l'.
Qed.

Lemma static_outputs_renamed_iff_affected_witness :
  ∃ e',
    visit "x" "injected_" task_B (initial_locals "x") (start chain_pipeline)
    = (e', inr (visit_locals "x" task_B (initial_locals "x"))) ∧
    (affected task_B (initial_locals "x") →
     configOverride (pipeline e') "B" ("connections." +:+ "out")
     = Some ("injected_" +:+ "y")) ∧
    (¬ affected task_B (initial_locals "x") → e' = start chain_pipeline).
Proof.
  apply (proj1 static_outputs_renamed_iff_affected "x" "injected_" task_B
           (initial_locals "x") (start chain_pipeline) "out"
           (mkConnection "y" Output true)).
  - reflexivity.
  - by apply (bool_decide_unpack _); vm_compute.
  - by vm_compute.
  - reflexivity.
  - reflexivity.
Defined.

Lemma absent_by_Forall dataset_type_name (order : list TaskDef) :
  Forall (λ t, isAnalysisPipelineTask t = false →
               (dataset_type_name ∉ input_types_of t) ∧
               (dataset_type_name ∉ output_types_of t)) order →
  ∀ t, t ∈ order → isAnalysisPipelineTask t = false →
       (dataset_type_name ∉ input_types_of t) ∧ (dataset_type_name ∉ output_types_of t).
Proof. intros Hall. by rewrite Forall_forall in Hall. Qed.




(** C10.  An analysis task leaves the catalog of names, the injected types
    and the precursor labels as they are.  Hence, when the seed is among
    the dataset type names of no task other than analysis tasks, the
    existence check raises the fatal error, whether or not an analysis task
    reads or writes the seed. *)
Theorem analysis_tasks_hide_seed toExpandedPipeline dataset_type_name prefix e :
  (∀ t, t ∈ toExpandedPipeline (pipeline e) → label t ∈ dom (tasks (pipeline e))) →
  (∀ t, t ∈ toExpandedPipeline (pipeline e) → isAnalysisPipelineTask t = false →
        (dataset_type_name ∉ input_types_of t) ∧ (dataset_type_name ∉ output_types_of t)) →
  (∀ t l e1 e2 l2,
     isAnalysisPipelineTask t = true →
     visit dataset_type_name prefix t l e1 = (e2, inr l2) → l2 = l) ∧
  ∃ e',
    determine_injected_types toExpandedPipeline dataset_type_name prefix e
    = (e', inl (RuntimeError (DatasetTypeNotFound dataset_type_name))).
Proof.
  intros Hlabels Habsent. split.
  - intros t l e1 e2 l2 Ha Hrun.
    apply visit_inv in Hrun as [[-> _]|[_ Hs]]; [|congruence].
    unfold visit_locals. by rewrite Ha.
  - destruct (propagate_seed_absent dataset_type_name prefix _ e Hlabels Habsent)
      as (e' & l' & Hrun & Hall & _).
    exists e'. unfold determine_injected_types.
    rewrite bind_run. unfold get_pipeline. rewrite bind_run, Hrun.
    by rewrite decide_True.
Qed.

Lemma analysis_tasks_hide_seed_witness :
  "q" ∈ input_types_of task_plots ∧
  task_plots ∈ expand classes (pipeline plots_after_exclusion) ∧
  ∃ e',
    determine_injected_types (expand classes) "q" "injected_" plots_after_exclusion
    = (e', inl (RuntimeError (DatasetTypeNotFound "q"))).
Proof.
  split; [by apply (bool_decide_unpack _); vm_compute|].
  split; [vm_compute; right; left|].
  apply (analysis_tasks_hide_seed (expand classes) "q" "injected_" plots_after_exclusion).
  - intros t. apply elem_of_expand.
  - apply absent_by_Forall. by apply (bool_decide_unpack _); vm_compute.
Defined.

(** C4, the arity check misses a supplied pipeline object without tasks:
    handing the empty pipeline as the injection pipeline does not raise;
    the call returns, with the note that no injection pipeline could be
    inferred, as if nothing had been supplied.  The same empty pipeline
    read from a location does raise. *)
Theorem empty_injection_pipeline_object_not_rejected :
  len empty_pipeline = 0 ∧
  (∃ e' p',
     make_injection_pipeline no_files (expand classes) "x" (IsPipeline chain_pipeline)
       (Some (IsPipeline empty_pipeline)) false default_excluded_tasks "injected_" None
     = (e', inr p') ∧
     records e' =
       [WarnNotExcluded "Tasks"
          "fgcmBuildFromIsolatedStars, fgcmFitCycle, fgcmOutputProducts, gbdesAstrometricFit, jointcal";
        WarnNoInjectionPipeline "x";
        InfoMade 4]) ∧
  (∃ e',
     no_files "empty.yaml" = empty_pipeline ∧
     make_injection_pipeline no_files (expand classes) "x" (IsPipeline chain_pipeline)
       (Some (IsStr "empty.yaml")) false default_excluded_tasks "injected_" None
     = (e', inl (RuntimeError (WrongTaskCount 0)))).
Proof.
  split; [reflexivity|]. split.
  - eexists _, _. split; [vm_compute; reflexivity|]. reflexivity.
  - eexists. split; [reflexivity|]. vm_compute. reflexivity.
Qed.

(** ** Instances of the theorems on the example pipelines *)

Lemma injection_task_boundary_rewritten_witness :
  configOverride (pipeline chain_after_merge) (label task_inject)
    "connections.input_exposure" = Some "x" ∧
  configOverride (pipeline chain_after_merge) (label task_inject)
    "connections.output_exposure" = Some ("injected_" +:+ "x") ∧
  ∀ declared,
    effectiveName (pipeline chain_after_merge) (label task_inject) "input_exposure" declared
    = "x" ∧
    effectiveName (pipeline chain_after_merge) (label task_inject) "output_exposure" declared
    = "injected_" +:+ "x".
Proof.
  apply (injection_task_boundary_rewritten no_files (expand classes) "x" "injected_" false
           {[ "A" ]} (IsPipeline injection_stub) task_inject (start chain_pipeline)
           chain_after_merge).
  - vm_compute. reflexivity.
  - vm_compute. left.
Defined.

Lemma precursor_subsets_gain_injection_task_witness :
  follows "A" (label task_inject) (pipeline chain_after_merge) ∧
  ∃ members',
    labeled_subsets (pipeline chain_after_merge) !! "step1" = Some members' ∧
    {[ "A"; "B" ]} ⊆ members' ∧ label task_inject ∈ members'.
Proof.
  pose proof (precursor_subsets_gain_injection_task no_files (expand classes) "x"
                "injected_" {[ "A" ]} (IsPipeline injection_stub) task_inject
                (start chain_pipeline) chain_after_merge) as H.
  destruct H as (Hgain & Hfollows & _).
  - vm_compute. reflexivity.
  - vm_compute. reflexivity.
  - split.
    + apply Hfollows. set_solver.
    + apply (Hgain "A" "step1" {[ "A"; "B" ]}).
      * set_solver.
      * vm_compute. reflexivity.
      * set_solver.
Defined.

Lemma injected_types_monotone_witness :
  "x" ∈ injected_types
          (returned (initial_locals "x")
             (propagate "x" "injected_" [task_A; task_B] (start chain_pipeline))) ∧
  injected_types
    (returned (initial_locals "x")
       (propagate "x" "injected_" [task_A; task_B] (start chain_pipeline)))
  ⊆ injected_types
      (returned (initial_locals "x")
         (propagate "x" "injected_" ([task_A; task_B] ++ [task_C; task_D])
            (start chain_pipeline))).
Proof.
  apply (injected_types_monotone "x" "injected_" [task_A; task_B] [task_C; task_D]
           (start chain_pipeline)
           (propagate "x" "injected_" [task_A; task_B] (start chain_pipeline)).1
           _
           (propagate "x" "injected_" ([task_A; task_B] ++ [task_C; task_D])
              (start chain_pipeline)).1).
  - vm_compute. reflexivity.
  - vm_compute. reflexivity.
Defined.

Lemma exclusion_keeps_subsets_closed_witness :
  subsets_closed plots_pipeline ∧
  ∃ e',
    remove_excluded_tasks default_excluded_tasks (start plots_pipeline) = (e', inr tt) ∧
    subsets_closed (pipeline e') ∧
    dom (tasks (pipeline e'))
    = dom (tasks plots_pipeline) ∖ excluded_labels default_excluded_tasks ∧
    (∀ subset,
       labeled_subsets (pipeline e') !! subset
       = (λ members, members ∖ excluded_labels default_excluded_tasks)
           <$> labeled_subsets plots_pipeline !! subset) ∧
    ∀ subset members, labeled_subsets (pipeline e') !! subset = Some members →
                      members ## excluded_labels default_excluded_tasks.
Proof.
  assert (subsets_closed plots_pipeline) as Hclosed.
  { change (map_Forall (λ _ members, members ⊆ dom (tasks plots_pipeline))
              (labeled_subsets plots_pipeline)).
    by apply (bool_decide_unpack _); vm_compute. }
  split; [exact Hclosed|].
  apply (exclusion_keeps_subsets_closed default_excluded_tasks (start plots_pipeline) Hclosed).
Defined.


(** ** The merge step once entered *)

(** When the body of [if injection_pipeline:] runs, an injection pipeline
    without tasks or with more than one task raises the fatal error and
    leaves the pipeline as it is; one with exactly one task, of a label the
    pipeline does not have yet, is merged and the step returns. *)
Theorem merge_step_arity fromFile toExpandedPipeline dataset_type_name prefix
    exclude_subsets precursors injection_pipeline e :
  let pipeline2 := load fromFile injection_pipeline in
  (len pipeline2 ≠ 1 →
   merge_injection_pipeline fromFile toExpandedPipeline dataset_type_name prefix
     exclude_subsets precursors injection_pipeline e
   = (e, inl (RuntimeError (WrongTaskCount (len pipeline2))))) ∧
  (len pipeline2 = 1 →
   ∀ t, toExpandedPipeline pipeline2 = [t] →
        label t ∈ dom (tasks pipeline2) →
        dom (tasks (pipeline e)) ∩ dom (tasks pipeline2) = ∅ →
        precursors ⊆ dom (tasks (pipeline e)) →
        ∃ e', merge_injection_pipeline fromFile toExpandedPipeline dataset_type_name prefix
                exclude_subsets precursors injection_pipeline e = (e', inr tt) ∧
              label t ∈ dom (tasks (pipeline e'))).
Proof.
  intros pipeline2. split.
  - apply merge_arity_check.
  - intros Hlen t Hexp Ht Hfresh Hprec.
    destruct (merge_single_task_returns fromFile toExpandedPipeline dataset_type_name
                prefix exclude_subsets precursors injection_pipeline t e
                Hlen Hexp Ht Hfresh Hprec) as [e' He'].
    exists e'. split; [exact He'|].
    assert (t ∈ toExpandedPipeline (load fromFile injection_pipeline)) as Hin.
    { fold pipeline2. rewrite Hexp. left. }
    destruct (injection_overrides_stay _ _ _ _ _ _ _ _ _ _ He' Hin) as [Hi _].
    unfold configOverride in Hi.
    destruct (tasks (pipeline e') !! label t) eqn:Hl; [|done].
    by apply elem_of_dom_2 in Hl.
Qed.

Lemma merge_step_arity_witness :
  merge_injection_pipeline no_files (expand classes) "x" "injected_" false {[ "A" ]}
    (IsPipeline chain_pipeline) (start chain_pipeline)
  = (start chain_pipeline, inl (RuntimeError (WrongTaskCount 4))) ∧
  ∃ e', merge_injection_pipeline no_files (expand classes) "x" "injected_" false {[ "A" ]}
          (IsPipeline injection_stub) (start chain_pipeline) = (e', inr tt) ∧
        label task_inject ∈ dom (tasks (pipeline e')).
Proof.
  split.
  - apply (proj1 (merge_step_arity no_files (expand classes) "x" "injected_" false {[ "A" ]}
                    (IsPipeline chain_pipeline) (start chain_pipeline))).
    by vm_compute.
  - apply (proj2 (merge_step_arity no_files (expand classes) "x" "injected_" false {[ "A" ]}
                    (IsPipeline injection_stub) (start chain_pipeline))).
    + reflexivity.
    + vm_compute. reflexivity.
    + by apply (bool_decide_unpack _); vm_compute.
    + by apply (bool_decide_unpack _); vm_compute.
    + by apply (bool_decide_unpack _); vm_compute.
Defined.

(** ** Runs of the exclusion pass *)

Example exclusion_warning_none :
  records (remove_excluded_tasks (ExcludedStr "jointcal") (start plots_pipeline)).1 = [].
Proof. vm_compute. reflexivity. Qed.

Example exclusion_warning_singular :
  records (remove_excluded_tasks (ExcludedStr "jointcal,fgcmFitCycle")
             (start plots_pipeline)).1
  = [WarnNotExcluded "Task" "fgcmFitCycle"].
Proof. vm_compute. reflexivity. Qed.

Example exclusion_warning_plural :
  records (remove_excluded_tasks (ExcludedStr "zeta,jointcal,alpha")
             (start plots_pipeline)).1
  = [WarnNotExcluded "Tasks" "alpha, zeta"].
Proof. vm_compute. reflexivity. Qed.

Example exclusion_removes_from_subsets :
  labeled_subsets (pipeline plots_after_exclusion) !! "all" = Some {[ "B"; "plots" ]} ∧
  dom (tasks (pipeline plots_after_exclusion)) = {[ "B"; "plots" ]}.
Proof. split; vm_compute; reflexivity. Qed.

Example split_comma_example : split_comma "a,b,,c" = ["a"; "b"; ""; "c"].
Proof. reflexivity. Qed.

(** * Further properties of the code *)

(** ** Definitions used below *)

(** The local variables after the loop over [order], started from [l]. *)
Definition propagate_locals (dataset_type_name : string) (order : list TaskDef) (l : Locals)
  : Locals :=
  foldl (λ l t, visit_locals dataset_type_name t l) l order.

(** Two states of the pipeline object that differ at most in the overrides
    recorded for the tasks in [labels]. *)
Definition differ_at_tasks (labels : list string) (p p' : Pipeline) : Prop :=
  dom (tasks p') = dom (tasks p) ∧
  labeled_subsets p' = labeled_subsets p ∧
  instrument p' = instrument p ∧
  (∀ l, l ∉ labels → tasks p' !! l = tasks p !! l) ∧
  ∀ l, klass <$> tasks p' !! l = klass <$> tasks p !! l.

(** The warnings of lines 171-176 for a task: one for each input or output
    field that is not an attribute of the connections class. *)
Definition dynamic_connection_warnings (t : TaskDef) (fields : list string) : list LogRecord :=
  (λ field, WarnDynamicConnection field (label t))
    <$> filter (λ field, hasattr_ConnectionsClass (connections t) field = false) fields.

(** The dataset type names of the [match] of lines 186-193. *)
Definition known_dataset_types : list string :=
  ["postISRCCD"; "icExp"; "calexp"; "deepCoadd"; "deepCoadd_calexp"; "goodSeeingCoadd"].

(** What lines 230-233 do to the members of one subset. *)
Definition with_injection_label (injection_label : string) (precursors : gset string)
    (members : gset string) : gset string :=
  if decide (members ∩ precursors ≠ ∅) then members ∪ {[injection_label]} else members.

(** ** [_get_dataset_type_names] *)


(** ** The loop over the tasks *)

Lemma differ_at_tasks_refl labels p : differ_at_tasks labels p p.
Proof. by repeat split. Qed.

Lemma differ_at_tasks_step labels task_label p1 p2 p3 :
  task_label ∈ labels →
  differ_at_tasks labels p1 p2 → differ_at_task task_label p2 p3 →
  differ_at_tasks labels p1 p3.
Proof.
  intros Hin (Hd & Hs & Hi & Ht & Hk) (Hd' & Hs' & Hi' & Ht' & Hk').
  repeat split; try congruence.
  intros l Hl. rewrite Ht', Ht; [done..|]. by intros ->.
Qed.

Lemma rename_field_inv prefix t injected field e e' :
  rename_field prefix t injected field e = (e', inr tt) →
  differ_at_task (label t) (pipeline e) (pipeline e') ∧
  records e' =
    (records e ++ if hasattr_ConnectionsClass (connections t) field then []
                  else [WarnDynamicConnection field (label t)])%list.
Proof.
  unfold rename_field. destruct (hasattr_ConnectionsClass (connections t) field).
  - case_decide.
    + intros [Hm Hr]%method_inv. apply addConfigOverride_inv in Hm as (Hd & _).
      by rewrite app_nil_r.
    + intros [= <-]. rewrite app_nil_r. split; [apply differ_at_task_refl|done].
  - intros [= <-]. simpl. split; [apply differ_at_task_refl|done].
Qed.

Lemma rename_fields_inv prefix t injected (fields : list string) e e' :
  for_each fields (rename_field prefix t injected) e = (e', inr tt) →
  differ_at_task (label t) (pipeline e) (pipeline e') ∧
  records e' = (records e ++ dynamic_connection_warnings t fields)%list.
Proof.
  revert e. induction fields as [|f fields IH]; intros e Hrun; simpl in Hrun.
  - injection Hrun as <-. split; [apply differ_at_task_refl|].
    unfold dynamic_connection_warnings. simpl. by rewrite app_nil_r.
  - apply bind_inv in Hrun as (e1 & [] & [Hd1 Hr1]%rename_field_inv & Hrest).
    apply IH in Hrest as [Hd Hr]. split; [by eapply differ_at_task_trans|].
    rewrite Hr, Hr1, <- app_assoc. f_equal.
    unfold dynamic_connection_warnings. rewrite filter_cons.
    destruct (hasattr_ConnectionsClass (connections t) f) eqn:Hf.
    + by rewrite decide_False.
    + by rewrite decide_True.
Qed.

(** One iteration that returns: the local variables, what may differ in the
    pipeline, and what is logged. *)
Lemma visit_frame dataset_type_name prefix t l e e' l' :
  visit dataset_type_name prefix t l e = (e', inr l') →
  l' = visit_locals dataset_type_name t l ∧
  differ_at_task (label t) (pipeline e) (pipeline e') ∧
  records e' =
    (records e ++
     if isAnalysisPipelineTask t then []
     else if decide (affected t l)
          then dynamic_connection_warnings t
                 (elements (inputs (connections t) ∪ outputs (connections t)))
          else [])%list.
Proof.
  intros Hrun.
  assert (l' = visit_locals dataset_type_name t l) as Hl.
  { by apply visit_inv in Hrun as [[? _]|[? _]]. }
  split; [exact Hl|]. revert Hrun. unfold visit.
  destruct (isAnalysisPipelineTask t).
  - intros (e1 & [] & [Hm Hr]%method_inv & [= <- _])%bind_inv.
    apply addConfigOverride_inv in Hm as (Hd & _). by rewrite app_nil_r.
  - fold (input_types_of t) (output_types_of t).
    destruct (decide (0 < size (input_types_of t ∩ injected_types l))) as [Hsz|Hsz].
    + apply affected_size in Hsz as Haff. rewrite (decide_True _ _ Haff).
      intros (e1 & [] & Hloop & [= <- _])%bind_inv.
      by apply rename_fields_inv in Hloop.
    + assert (¬ affected t l) as Haff by (by rewrite <- affected_size).
      rewrite (decide_False _ _ Haff). intros [= <- _].
      rewrite app_nil_r. split; [apply differ_at_task_refl|done].
Qed.

Lemma for_fold_visit_inv dataset_type_name prefix order l e e' l' :
  for_fold order (visit dataset_type_name prefix) l e = (e', inr l') →
  l' = propagate_locals dataset_type_name order l ∧
  differ_at_tasks (label <$> order) (pipeline e) (pipeline e').
Proof.
  revert l e. induction order as [|t order IH]; intros l e Hrun; simpl in Hrun.
  - injection Hrun as <- <-. split; [done|apply differ_at_tasks_refl].
  - apply bind_inv in Hrun as (e1 & l1 & (-> & Hd1 & _)%visit_frame & Hrest).
    apply IH in Hrest as [-> Hd]. split; [done|].
    destruct Hd as (Hdom & Hs & Hi & Ht & Hk).
    destruct Hd1 as (Hdom1 & Hs1 & Hi1 & Ht1 & Hk1).
    repeat split; try congruence.
    intros k Hk0. rewrite fmap_cons, not_elem_of_cons in Hk0. destruct Hk0 as [Hne Hnot].
    rewrite Ht, Ht1; done.
Qed.

(** Every iteration returns when the label of the task is a task of the
    pipeline. *)
Lemma visit_returns dataset_type_name prefix t l e :
  label t ∈ dom (tasks (pipeline e)) →
  ∃ e', visit dataset_type_name prefix t l e
        = (e', inr (visit_locals dataset_type_name t l)).
Proof.
  intros Hin. destruct (isAnalysisPipelineTask t) eqn:Ha.
  - destruct (visit_analysis dataset_type_name prefix t l e Ha Hin) as (p' & _ & Hrun).
    eexists. rewrite Hrun. unfold visit_locals. by rewrite Ha.
  - destruct (visit_static dataset_type_name prefix t l e Ha Hin) as (e' & Hrun & _).
    by exists e'.
Qed.

Lemma for_fold_visit_returns dataset_type_name prefix order l e :
  (∀ t, t ∈ order → label t ∈ dom (tasks (pipeline e))) →
  ∃ e', for_fold order (visit dataset_type_name prefix) l e
        = (e', inr (propagate_locals dataset_type_name order l)).
Proof.
  intros Hlabels.
  destruct (for_fold_total (λ _ e1, dom (tasks (pipeline e1)) = dom (tasks (pipeline e)))
              order (visit dataset_type_name prefix) l e) as (l' & e' & Hrun & _).
  - intros t l1 e1 Ht Hdom.
    destruct (visit_returns dataset_type_name prefix t l1 e1) as [e2 H2].
    { rewrite Hdom. by apply Hlabels. }
    exists (visit_locals dataset_type_name t l1), e2. split; [exact H2|].
    apply visit_frame in H2 as (_ & (-> & _) & _). done.
  - done.
  - exists e'. pose proof (for_fold_visit_inv _ _ _ _ _ _ _ Hrun) as [<- _]. exact Hrun.
Qed.

(** The run of the propagation on the chain example, in the order A, B, C,
    D, and what it returned. *)
Definition chain_order : list TaskDef := [task_A; task_B; task_C; task_D].
Definition chain_run : Env * (Exn + Locals) :=
  propagate "x" "injected_" chain_order (start chain_pipeline).
Definition chain_locals : Locals := returned (initial_locals "x") chain_run.

Lemma chain_run_returns :
  propagate "x" "injected_" chain_order (start chain_pipeline)
  = (chain_run.1, inr chain_locals).
Proof. vm_compute. reflexivity. Qed.

Lemma propagate_locals_cons dataset_type_name t order l :
  propagate_locals dataset_type_name (t :: order) l
  = propagate_locals dataset_type_name order (visit_locals dataset_type_name t l).
Proof. reflexivity. Qed.

Lemma propagate_locals_injected_mono dataset_type_name order l :
  injected_types l ⊆ injected_types (propagate_locals dataset_type_name order l).
Proof.
  revert l. induction order as [|t order IH]; intros l; [done|].
  rewrite propagate_locals_cons. etrans; [|apply IH]. apply visit_locals_injected.
Qed.

Lemma propagate_locals_catalog dataset_type_name order l x :
  x ∈ all_connection_type_names (propagate_locals dataset_type_name order l) ↔
  x ∈ all_connection_type_names l ∨
  ∃ t, t ∈ order ∧ isAnalysisPipelineTask t = false ∧
       (x ∈ input_types_of t ∨ x ∈ output_types_of t).
Proof.
  revert l. induction order as [|t order IH]; intros l.
  - simpl. split; [by left|]. intros [?|(t & []%elem_of_nil & _)]. done.
  - rewrite propagate_locals_cons, IH. unfold visit_locals.
    destruct (isAnalysisPipelineTask t) eqn:Ha; simpl.
    + split.
      * intros [?|(u & Hu & ?)]; [by left|]. right. exists u. split; [by right|done].
      * intros [?|(u & [->|Hu]%elem_of_cons & Hs & ?)]; [by left|congruence|].
        right. by exists u.
    + rewrite !elem_of_union. split.
      * intros [[?|[?|?]]|(u & Hu & ?)]; [by left|right; exists t..|right; exists u].
        -- split; [left|]. by split; [|left].
        -- split; [left|]. by split; [|right].
        -- split; [by right|done].
      * intros [?|(u & [->|Hu]%elem_of_cons & Hs & Hx)]; [by left; left|..].
        -- left. right. tauto.
        -- right. by exists u.
Qed.

Lemma propagate_locals_precursors dataset_type_name order l x :
  x ∈ precursor_injection_task_labels (propagate_locals dataset_type_name order l) ↔
  x ∈ precursor_injection_task_labels l ∨
  ∃ t, t ∈ order ∧ isAnalysisPipelineTask t = false ∧ label t = x ∧
       dataset_type_name ∈ output_types_of t.
Proof.
  revert l. induction order as [|t order IH]; intros l.
  - simpl. split; [by left|]. intros [?|(t & []%elem_of_nil & _)]. done.
  - rewrite propagate_locals_cons, IH. unfold visit_locals.
    destruct (isAnalysisPipelineTask t) eqn:Ha; simpl.
    + split.
      * intros [?|(u & Hu & ?)]; [by left|]. right. exists u. split; [by right|done].
      * intros [?|(u & [->|Hu]%elem_of_cons & Hs & ?)]; [by left|congruence|].
        right. by exists u.
    + case_decide as Hout.
      * rewrite elem_of_union, elem_of_singleton. split.
        -- intros [[?| ->]|(u & Hu & ?)]; [by left|right; exists t|right; exists u].
           ++ split; [left|done].
           ++ split; [by right|done].
        -- intros [?|(u & [->|Hu]%elem_of_cons & Hs & Hx)]; [by left; left|..].
           ++ left. right. by destruct Hx.
           ++ right. by exists u.
      * split.
        -- intros [?|(u & Hu & ?)]; [by left|]. right. exists u. split; [by right|done].
        -- intros [?|(u & [->|Hu]%elem_of_cons & Hs & Hx)]; [by left|..].
           ++ by destruct Hx.
           ++ right. by exists u.
Qed.

(** Every injected name was there at the start or is an output of a task
    that has an input among the injected names. *)
Lemma propagate_locals_injected_sound dataset_type_name order l x :
  x ∈ injected_types (propagate_locals dataset_type_name order l) →
  x ∈ injected_types l ∨
  ∃ t, t ∈ order ∧ isAnalysisPipelineTask t = false ∧ x ∈ output_types_of t ∧
       input_types_of t ∩ injected_types (propagate_locals dataset_type_name order l) ≠ ∅.
Proof.
  revert l. induction order as [|t order IH]; intros l; [by left|].
  rewrite propagate_locals_cons. intros [Hx|(u & Hu & ?)]%IH.
  - revert Hx. unfold visit_locals at 1.
    destruct (isAnalysisPipelineTask t) eqn:Ha; [by left|]. simpl.
    case_decide as Haff; [|by left].
    intros [?|Hout]%elem_of_union; [by left|]. right. exists t.
    split; [left|]. split; [done|]. split; [done|].
    pose proof (propagate_locals_injected_mono dataset_type_name (t :: order) l) as Hmono.
    rewrite propagate_locals_cons in Hmono. unfold affected in Haff. set_solver.
  - right. exists u. split; [by right|done].
Qed.

(** In a dependency order the injected names are closed under the tasks: a
    task with an injected input has all its outputs injected. *)
Lemma propagate_locals_closed dataset_type_name order l t :
  dependency_order order →
  t ∈ order → isAnalysisPipelineTask t = false →
  input_types_of t ∩ injected_types (propagate_locals dataset_type_name order l) ≠ ∅ →
  output_types_of t ⊆ injected_types (propagate_locals dataset_type_name order l).
Proof.
  revert l. induction order as [|t0 order IH]; intros l Hdep Ht Ha Hin.
  { by apply elem_of_nil in Ht. }
  destruct Hdep as [Hfirst Hdep]. rewrite propagate_locals_cons in *.
  apply elem_of_cons in Ht as [->|Ht]; [|by apply IH].
  destruct (decide (input_types_of t0 ∩ injected_types l ≠ ∅)) as [Haff|Haff].
  - etrans; [|apply propagate_locals_injected_mono].
    unfold visit_locals. rewrite Ha. simpl. rewrite decide_True by done. set_solver.
  - fold (affected t0 l) in Haff.
    exfalso. apply Hin. apply set_eq. intros x. split; [|set_solver].
    intros [Hxi Hxf]%elem_of_intersection.
    apply propagate_locals_injected_sound in Hxf as [Hx|(u & Hu & _ & Hxo & _)].
    + revert Hx. unfold visit_locals. rewrite Ha. simpl. rewrite decide_False by done.
      intros Hx. exfalso. apply Haff. unfold affected. set_solver.
    + rewrite Forall_forall in Hfirst. specialize (Hfirst u Hu). set_solver.
Qed.

(** X3.  A run of the loop over the tasks that returns has changed nothing
    in the pipeline but the overrides of tasks it visited: the set of
    tasks, their classes, the subsets and the instrument are as before, and
    the tasks of every other label are untouched.  The local variables it
    returns are a function of the visited task definitions alone. *)
Theorem propagation_frame dataset_type_name prefix order e e' l' :
  propagate dataset_type_name prefix order e = (e', inr l') →
  differ_at_tasks (label <$> order) (pipeline e) (pipeline e') ∧
  l' = propagate_locals dataset_type_name order (initial_locals dataset_type_name).
Proof. intros Hrun. apply for_fold_visit_inv in Hrun as [-> Hd]. done. Qed.

Lemma propagation_frame_witness :
  differ_at_tasks (label <$> chain_order) (pipeline (start chain_pipeline))
    (pipeline chain_run.1) ∧
  chain_locals = propagate_locals "x" chain_order (initial_locals "x").
Proof.
  apply (propagation_frame "x" "injected_" chain_order (start chain_pipeline)).
  exact chain_run_returns.
Defined.

(** X4.  The loop over the tasks raises nothing when every task definition
    it visits carries the label of a task of the pipeline. *)
Theorem propagation_returns dataset_type_name prefix order e :
  (∀ t, t ∈ order → label t ∈ dom (tasks (pipeline e))) →
  ∃ e', propagate dataset_type_name prefix order e
        = (e', inr (propagate_locals dataset_type_name order
                      (initial_locals dataset_type_name))).
Proof. apply for_fold_visit_returns. Qed.

Lemma propagation_returns_witness :
  ∃ e', propagate "x" "injected_" (expand classes chain_pipeline) (start chain_pipeline)
        = (e', inr (propagate_locals "x" (expand classes chain_pipeline)
                      (initial_locals "x"))).
Proof.
  apply (propagation_returns "x" "injected_" (expand classes chain_pipeline)
           (start chain_pipeline)).
  intros t. apply elem_of_expand.
Defined.

(** X5.  After the loop, the catalog [all_connection_type_names] holds
    exactly the input and output dataset type names of the visited tasks
    that are not analysis tasks, and the precursor labels are exactly the
    labels of those among them that have the seed as an output. *)
Theorem catalog_and_precursors_exact dataset_type_name prefix order e e' l' :
  propagate dataset_type_name prefix order e = (e', inr l') →
  (∀ x, x ∈ all_connection_type_names l' ↔
        ∃ t, t ∈ order ∧ isAnalysisPipelineTask t = false ∧
             (x ∈ input_types_of t ∨ x ∈ output_types_of t)) ∧
  (∀ x, x ∈ precursor_injection_task_labels l' ↔
        ∃ t, t ∈ order ∧ isAnalysisPipelineTask t = false ∧ label t = x ∧
             dataset_type_name ∈ output_types_of t).
Proof.
  intros [-> _]%for_fold_visit_inv. split; intros x.
  - rewrite propagate_locals_catalog. simpl. set_solver.
  - rewrite propagate_locals_precursors. simpl. set_solver.
Qed.

Lemma catalog_and_precursors_exact_witness :
  (∀ x, x ∈ all_connection_type_names chain_locals ↔
        ∃ t, t ∈ chain_order ∧ isAnalysisPipelineTask t = false ∧
             (x ∈ input_types_of t ∨ x ∈ output_types_of t)) ∧
  (∀ x, x ∈ precursor_injection_task_labels chain_locals ↔
        ∃ t, t ∈ chain_order ∧ isAnalysisPipelineTask t = false ∧ label t = x ∧
             "x" ∈ output_types_of t).
Proof.
  apply (catalog_and_precursors_exact "x" "injected_" chain_order (start chain_pipeline)
           chain_run.1).
  exact chain_run_returns.
Defined.

(** X6.  After the loop, every injected dataset type name is the seed or an
    output of a visited task, not an analysis task, that has an input among
    the injected names; and when the tasks are visited in dependency order
    the converse holds: every visited task, not an analysis task, with an
    input among the injected names has all its outputs among them. *)
Theorem injected_types_downstream dataset_type_name prefix order e e' l' :
  propagate dataset_type_name prefix order e = (e', inr l') →
  (∀ x, x ∈ injected_types l' →
        x = dataset_type_name ∨
        ∃ t, t ∈ order ∧ isAnalysisPipelineTask t = false ∧ x ∈ output_types_of t ∧
             input_types_of t ∩ injected_types l' ≠ ∅) ∧
  (dependency_order order →
   ∀ t, t ∈ order → isAnalysisPipelineTask t = false →
        input_types_of t ∩ injected_types l' ≠ ∅ →
        output_types_of t ⊆ injected_types l').
Proof.
  intros [-> _]%for_fold_visit_inv. split.
  - intros x [Hx|?]%propagate_locals_injected_sound; [|by right].
    left. simpl in Hx. set_solver.
  - intros Hdep t. by apply propagate_locals_closed.
Qed.

Lemma injected_types_downstream_witness :
  output_types_of task_C ⊆ injected_types chain_locals.
Proof.
  apply (proj2 (injected_types_downstream "x" "injected_" chain_order
                  (start chain_pipeline) chain_run.1 chain_locals chain_run_returns)).
  - by apply (bool_decide_unpack _); vm_compute.
  - unfold chain_order. right. right. left.
  - reflexivity.
  - by apply (bool_decide_unpack _); vm_compute.
Defined.

(** A decidable property of all elements of a concrete list, by
    evaluation. *)
Ltac decide_all :=
  lazymatch goal with
  | |- ∀ x, x ∈ ?l → @?P x =>
      refine (proj1 (Forall_forall P l) _);
      apply (bool_decide_unpack _); vm_compute; exact I
  end.

Lemma visit_unaffected dataset_type_name prefix t l e e' l' :
  isAnalysisPipelineTask t = false → ¬ affected t l →
  visit dataset_type_name prefix t l e = (e', inr l') → e' = e.
Proof.
  intros Ha Haff. unfold visit. rewrite Ha.
  fold (input_types_of t) (output_types_of t).
  rewrite decide_False; [by intros [= <- _]|]. by rewrite affected_size.
Qed.

Lemma for_fold_visit_untouched dataset_type_name prefix order l e e' l' task_label :
  for_fold order (visit dataset_type_name prefix) l e = (e', inr l') →
  (∀ t, t ∈ order → label t = task_label →
        isAnalysisPipelineTask t = false ∧ input_types_of t ∩ injected_types l' = ∅) →
  tasks (pipeline e') !! task_label = tasks (pipeline e) !! task_label.
Proof.
  revert l e. induction order as [|t order IH]; intros l e Hrun Hclean; simpl in Hrun.
  - by injection Hrun as <- <-.
  - apply bind_inv in Hrun as (e1 & l1 & Hvisit & Hrest).
    rewrite (IH _ _ Hrest) by (intros u Hu; apply Hclean; by right).
    pose proof (visit_frame _ _ _ _ _ _ _ Hvisit) as (-> & (_ & _ & _ & Hother & _) & _).
    destruct (decide (task_label = label t)) as [->|Hne]; [|by apply Hother].
    destruct (Hclean t) as [Ha Hin]; [left|done|].
    apply for_fold_visit_inv in Hrest as [-> _].
    assert (¬ affected t l) as Haff.
    { unfold affected. intros Hne. apply Hne.
      pose proof (visit_locals_injected dataset_type_name t l).
      pose proof (propagate_locals_injected_mono dataset_type_name order
                    (visit_locals dataset_type_name t l)).
      set_solver. }
    by rewrite (visit_unaffected _ _ _ _ _ _ _ Ha Haff Hvisit).
Qed.

(** X7.  A task none of whose input dataset type names is among the
    injected names at the end of the loop is left untouched: when every
    visited task definition of a label is such a task, and not an analysis
    task, the entry of that label in the pipeline is the same before and
    after the loop. *)
Theorem tasks_not_downstream_untouched dataset_type_name prefix order e e' l' task_label :
  propagate dataset_type_name prefix order e = (e', inr l') →
  (∀ t, t ∈ order → label t = task_label →
        isAnalysisPipelineTask t = false ∧ input_types_of t ∩ injected_types l' = ∅) →
  tasks (pipeline e') !! task_label = tasks (pipeline e) !! task_label.
Proof. apply for_fold_visit_untouched. Qed.

Lemma tasks_not_downstream_untouched_witness :
  tasks (pipeline chain_run.1) !! "D" = tasks (pipeline (start chain_pipeline)) !! "D".
Proof.
  apply (tasks_not_downstream_untouched "x" "injected_" chain_order (start chain_pipeline)
           chain_run.1 chain_locals "D" chain_run_returns).
  decide_all.
Defined.

(** X8.  With every visited task definition carrying the label of a task
    of the pipeline, lines 134-182 return exactly when the seed is an input
    or output dataset type name of some visited task that is not an
    analysis task, and raise the fatal error otherwise. *)
Theorem existence_check_exact toExpandedPipeline dataset_type_name prefix e :
  (∀ t, t ∈ toExpandedPipeline (pipeline e) → label t ∈ dom (tasks (pipeline e))) →
  ((∃ t, t ∈ toExpandedPipeline (pipeline e) ∧ isAnalysisPipelineTask t = false ∧
         (dataset_type_name ∈ input_types_of t ∨ dataset_type_name ∈ output_types_of t)) →
   ∃ e', determine_injected_types toExpandedPipeline dataset_type_name prefix e
         = (e', inr (propagate_locals dataset_type_name (toExpandedPipeline (pipeline e))
                       (initial_locals dataset_type_name)))) ∧
  (¬ (∃ t, t ∈ toExpandedPipeline (pipeline e) ∧ isAnalysisPipelineTask t = false ∧
           (dataset_type_name ∈ input_types_of t ∨ dataset_type_name ∈ output_types_of t)) →
   ∃ e', determine_injected_types toExpandedPipeline dataset_type_name prefix e
         = (e', inl (RuntimeError (DatasetTypeNotFound dataset_type_name)))).
Proof.
  intros Hlabels.
  destruct (for_fold_visit_returns dataset_type_name prefix _
              (initial_locals dataset_type_name) e Hlabels) as [e' Hrun].
  assert (∀ k : Locals → M Locals,
            (p ← get_pipeline;
             l ← propagate dataset_type_name prefix (toExpandedPipeline p); k l) e
            = k (propagate_locals dataset_type_name (toExpandedPipeline (pipeline e))
                   (initial_locals dataset_type_name)) e') as Hstep.
  { intros k. rewrite bind_run. unfold get_pipeline. rewrite bind_run.
    unfold propagate. fold (initial_locals dataset_type_name). by rewrite Hrun. }
  split; intros Hpresent; exists e'; unfold determine_injected_types; rewrite Hstep.
  - rewrite decide_False; [done|]. intros Hno. apply Hno.
    apply propagate_locals_catalog. by right.
  - rewrite decide_True; [done|]. intros Hcat.
    apply propagate_locals_catalog in Hcat as [Hcat|?]; [|done]. simpl in Hcat. set_solver.
Qed.

Lemma existence_check_exact_witness :
  (∃ e', determine_injected_types (expand classes) "x" "injected_" (start chain_pipeline)
         = (e', inr (propagate_locals "x" (expand classes chain_pipeline)
                       (initial_locals "x")))) ∧
  (∃ e', determine_injected_types (expand classes) "q" "injected_" plots_after_exclusion
         = (e', inl (RuntimeError (DatasetTypeNotFound "q")))).
Proof.
  split.
  - apply (proj1 (existence_check_exact (expand classes) "x" "injected_"
                    (start chain_pipeline) (λ t, elem_of_expand classes chain_pipeline t))).
    exists task_A. split; [vm_compute; left|]. split; [reflexivity|].
    right. by apply (bool_decide_unpack _); vm_compute.
  - apply (proj2 (existence_check_exact (expand classes) "q" "injected_"
                    plots_after_exclusion
                    (λ t, elem_of_expand classes (pipeline plots_after_exclusion) t))).
    intros (t & Ht & Ha & Hq). revert t Ht Ha Hq. decide_all.
Defined.

(** X9.  The visit of an affected task, not an analysis task, sets the
    override of each of its input and output fields that is an attribute
    of the connections class and whose dataset type name is among the
    injected names (the outputs of the task included) to the prefix
    followed by that name; every other input or output field, and every
    other configuration key of the task, keeps the override it had. *)
Theorem affected_task_overrides_exact dataset_type_name prefix t l e :
  isAnalysisPipelineTask t = false →
  label t ∈ dom (tasks (pipeline e)) →
  affected t l →
  ∃ e',
    visit dataset_type_name prefix t l e = (e', inr (visit_locals dataset_type_name t l)) ∧
    (∀ field,
       field ∈ inputs (connections t) ∪ outputs (connections t) →
       configOverride (pipeline e') (label t) ("connections." +:+ field) =
       if decide (hasattr_ConnectionsClass (connections t) field = true ∧
                  getattr_name (connections t) field
                  ∈ injected_types l ∪ output_types_of t)
       then Some (prefix +:+ getattr_name (connections t) field)
       else configOverride (pipeline e) (label t) ("connections." +:+ field)) ∧
    (∀ key,
       (∀ field, field ∈ inputs (connections t) ∪ outputs (connections t) →
                 key ≠ "connections." +:+ field) →
       configOverride (pipeline e') (label t) key = configOverride (pipeline e) (label t) key).
Proof.
  intros Ha Hin Haff.
  destruct (rename_fields_run dataset_type_name prefix t
              (injected_types l ∪ output_types_of t)
              (elements (inputs (connections t) ∪ outputs (connections t))) e Hin)
    as (e' & Hrun & _ & Hset & Hoth).
  exists e'. split; [|split].
  - unfold visit, visit_locals. rewrite Ha.
    fold (input_types_of t) (output_types_of t).
    rewrite decide_True by (by apply affected_size).
    rewrite (decide_True _ _ Haff). by rewrite (bind_ok _ _ _ _ _ Hrun).
  - intros field Hfield. case_decide as Hren.
    + apply Hset; [by apply elem_of_elements|done].
    + apply Hoth. intros g _ Hg Heq.
      apply (inj (String.app "connections.")) in Heq. by subst g.
  - intros key Hkey. apply Hoth. intros g Hg%elem_of_elements _. by apply Hkey.
Qed.

Lemma affected_task_overrides_exact_witness :
  ∃ e',
    visit "x" "injected_" task_loose (initial_locals "x") (start loose_pipeline)
    = (e', inr (visit_locals "x" task_loose (initial_locals "x"))) ∧
    configOverride (pipeline e') "loose" "connections.in" = Some "injected_x" ∧
    configOverride (pipeline e') "loose" "connections.out" = None.
Proof.
  destruct (affected_task_overrides_exact "x" "injected_" task_loose (initial_locals "x")
              (start loose_pipeline)) as (e' & Hrun & Hfields & _).
  - reflexivity.
  - by apply (bool_decide_unpack _); vm_compute.
  - by apply (bool_decide_unpack _); vm_compute.
  - exists e'. split; [exact Hrun|]. split.
    + change (configOverride (pipeline e') (label task_loose) ("connections." +:+ "in")
              = Some "injected_x").
      rewrite (Hfields "in") by (by apply (bool_decide_unpack _); vm_compute).
      by vm_compute.
    + change (configOverride (pipeline e') (label task_loose) ("connections." +:+ "out")
              = None).
      rewrite (Hfields "out") by (by apply (bool_decide_unpack _); vm_compute).
      by vm_compute.
Defined.



(** ** The inference of the injection pipeline *)

(** X11.  Lines 184-206 never raise and never touch the pipeline.  A
    supplied injection pipeline that is true in a condition is kept and
    nothing is logged.  Otherwise, a seed among the six known dataset type
    names gives the location of its stub, with one informational record,
    and any other seed leaves the argument as it was, with one warning. *)
Theorem inference_exact dataset_type_name injection_pipeline e :
  ∃ inferred report,
    infer_injection_pipeline dataset_type_name injection_pipeline e
    = (mkEnv (pipeline e) (records e ++ report), inr inferred) ∧
    (truthy injection_pipeline = true → inferred = injection_pipeline ∧ report = []) ∧
    (truthy injection_pipeline = false →
     match inferred_location dataset_type_name with
     | Some location =>
         inferred = Some (IsStr location) ∧ truthy inferred = true ∧
         report = [InfoInferred dataset_type_name location]
     | None =>
         inferred = injection_pipeline ∧
         report = [WarnNoInjectionPipeline dataset_type_name]
     end) ∧
    (is_Some (inferred_location dataset_type_name) ↔
     dataset_type_name ∈ known_dataset_types).
Proof.
  assert (is_Some (inferred_location dataset_type_name) ↔
          dataset_type_name ∈ known_dataset_types) as Hknown.
  { unfold inferred_location, known_dataset_types.
    repeat case_decide; split; intros H'; try (by eexists); try (by destruct H' as [? [=]]);
      set_solver. }
  unfold infer_injection_pipeline.
  destruct (truthy injection_pipeline) eqn:Htruthy; simpl.
  - exists injection_pipeline, []. split; [rewrite app_nil_r; by destruct e|].
    split; [done|]. split; [done|exact Hknown].
  - destruct (inferred_location dataset_type_name) as [location|] eqn:Hloc.
    + assert (truthy (Some (IsStr location)) = true) as Hnonempty.
      { revert Hloc. unfold inferred_location.
        repeat case_decide; intros [= <-]; reflexivity. }
      exists (Some (IsStr location)), [InfoInferred dataset_type_name location].
      split; [|split; [done|split; [done|exact Hknown]]].
      rewrite !bind_run. unfold mret at 1, M_ret at 1. rewrite ?bind_run, Hnonempty.
      reflexivity.
    + exists injection_pipeline, [WarnNoInjectionPipeline dataset_type_name].
      split; [|split; [done|split; [done|exact Hknown]]].
      rewrite !bind_run. unfold logger at 1. rewrite ?bind_run. simpl.
      rewrite ?bind_run, Htruthy. reflexivity.
Qed.

(** ** The whole function *)

(** X12.  A call that returns has returned the pipeline object it worked
    on, in its final state, and the last record it logged is the number of
    tasks of that pipeline. *)
Theorem returns_the_mutated_pipeline fromFile toExpandedPipeline dataset_type_name
    reference_pipeline injection_pipeline exclude_subsets excluded_tasks prefix
    instrument e' p' :
  make_injection_pipeline fromFile toExpandedPipeline dataset_type_name reference_pipeline
    injection_pipeline exclude_subsets excluded_tasks prefix instrument = (e', inr p') →
  p' = pipeline e' ∧ last (records e') = Some (InfoMade (len p')).
Proof.
  unfold make_injection_pipeline, run.
  intros (e1 & [] & _ & (e2 & [] & _ & (e3 & l & _ & (e4 & inferred & _ &
            (e5 & [] & _ & Hend)%bind_inv)%bind_inv)%bind_inv)%bind_inv)%bind_inv.
  rewrite bind_run in Hend. unfold get_pipeline in Hend.
  rewrite bind_run in Hend. unfold logger, mret, M_ret in Hend.
  injection Hend as <- <-. simpl. split; [done|]. by rewrite last_snoc.
Qed.

Lemma returns_the_mutated_pipeline_witness :
  returned empty_pipeline
    (make_injection_pipeline no_files (expand classes) "x" (IsPipeline chain_pipeline)
       (Some (IsPipeline injection_stub)) false default_excluded_tasks "injected_" None)
  = pipeline
      (make_injection_pipeline no_files (expand classes) "x" (IsPipeline chain_pipeline)
         (Some (IsPipeline injection_stub)) false default_excluded_tasks "injected_" None).1 ∧
  last (records
          (make_injection_pipeline no_files (expand classes) "x" (IsPipeline chain_pipeline)
             (Some (IsPipeline injection_stub)) false default_excluded_tasks "injected_"
             None).1)
  = Some (InfoMade
            (len (returned empty_pipeline
                    (make_injection_pipeline no_files (expand classes) "x"
                       (IsPipeline chain_pipeline) (Some (IsPipeline injection_stub)) false
                       default_excluded_tasks "injected_" None)))).
Proof.
  apply (returns_the_mutated_pipeline no_files (expand classes) "x"
           (IsPipeline chain_pipeline) (Some (IsPipeline injection_stub)) false
           default_excluded_tasks "injected_" None).
  vm_compute. reflexivity.
Defined.

(** ** The maintenance of the subsets *)

(** Adding one label to the listed subsets, which all exist. *)
Lemma add_to_host_subsets injection_label (hosts : list string) p r :
  injection_label ∈ dom (tasks p) →
  NoDup hosts →
  (∀ s, s ∈ hosts → is_Some (labeled_subsets p !! s)) →
  ∃ subsets',
    for_each hosts (λ subset, method (addLabelToSubset subset injection_label)) (mkEnv p r)
    = (mkEnv (mkPipeline (tasks p) subsets' (instrument p)) r, inr tt) ∧
    ∀ s, subsets' !! s =
         (λ m, if decide (s ∈ hosts) then m ∪ {[injection_label]} else m)
           <$> labeled_subsets p !! s.
Proof.
  intros Hinj. revert p Hinj. induction hosts as [|h hosts IH]; intros p Hinj Hnd Hhost; simpl.
  - exists (labeled_subsets p). split; [by destruct p|].
    intros s. by destruct (labeled_subsets p !! s).
  - apply NoDup_cons in Hnd as [Hh Hnd].
    destruct (Hhost h) as [m Hm]; [left|].
    set (p1 := mkPipeline (tasks p) (<[h := m ∪ {[injection_label]}]> (labeled_subsets p))
                 (instrument p)).
    assert (method (addLabelToSubset h injection_label) (mkEnv p r) = (mkEnv p1 r, inr tt))
      as Hstep.
    { apply method_ok. simpl. unfold addLabelToSubset.
      rewrite decide_True by done. by rewrite Hm. }
    rewrite (bind_ok _ _ _ _ _ Hstep).
    destruct (IH p1 Hinj Hnd) as (subsets' & Hrun & Hlook).
    { intros s Hs. simpl. rewrite lookup_insert_ne; [|intros ->; done].
      apply Hhost. by right. }
    exists subsets'. split; [exact Hrun|].
    intros s. rewrite Hlook. simpl.
    destruct (decide (h = s)) as [<-|Hne].
    + rewrite lookup_insert_eq, Hm. simpl.
      rewrite decide_False by done. rewrite decide_True by left. done.
    + rewrite lookup_insert_ne by done.
      destruct (labeled_subsets p !! s); simpl; [|done].
      f_equal. destruct (decide (s ∈ hosts)) as [Hs|Hs].
      * rewrite decide_True; [done|by right].
      * rewrite decide_False; [done|]. intros [->|?]%elem_of_cons; done.
Qed.

(** Lines 230-233 over a list of precursor labels. *)
Lemma update_subsets_loop injection_label (labels : list string) p r :
  injection_label ∈ dom (tasks p) →
  (∀ l, l ∈ labels → l ∈ dom (tasks p)) →
  ∃ subsets',
    for_each labels
      (λ label,
         precursor_subsets ← query (findSubsetsWithLabel label);
         for_each (elements precursor_subsets)
           (λ subset, method (addLabelToSubset subset injection_label))) (mkEnv p r)
    = (mkEnv (mkPipeline (tasks p) subsets' (instrument p)) r, inr tt) ∧
    ∀ s, subsets' !! s =
         with_injection_label injection_label (list_to_set labels) <$> labeled_subsets p !! s.
Proof.
  intros Hinj. revert p Hinj.
  induction labels as [|lb labels IH]; intros p Hinj Hlabels; simpl.
  - exists (labeled_subsets p). split; [by destruct p|].
    intros s. destruct (labeled_subsets p !! s) as [m|]; simpl; [|done].
    f_equal. unfold with_injection_label. rewrite decide_False; [done|]. set_solver.
  - set (hs := dom (filter (λ kv : string * gset string, lb ∈ kv.2) (labeled_subsets p))).
    destruct (add_to_host_subsets injection_label (elements hs) p r Hinj)
      as (subsets1 & Hrun1 & Hlook1).
    { apply NoDup_elements. }
    { intros s Hs. apply elem_of_elements, elem_of_dom in Hs as [m Hm].
      apply map_lookup_filter_Some in Hm as [Hm _]. eauto. }
    erewrite bind_ok; cycle 1.
    { erewrite bind_ok; [exact Hrun1|].
      unfold query, findSubsetsWithLabel. simpl. rewrite decide_True; [done|].
      apply Hlabels. left. }
    destruct (IH (mkPipeline (tasks p) subsets1 (instrument p))) as (subsets' & Hrun & Hlook).
    { done. }
    { intros l Hl. apply Hlabels. by right. }
    exists subsets'. split; [exact Hrun|].
    intros s. rewrite Hlook. simpl. rewrite Hlook1.
    destruct (labeled_subsets p !! s) as [m|] eqn:Hm; simpl; [|done].
    f_equal. unfold with_injection_label.
    assert (s ∈ elements hs ↔ lb ∈ m) as Hhost.
    { rewrite elem_of_elements. unfold hs. rewrite elem_of_dom. split.
      - intros [m' [Hm' Hl]%map_lookup_filter_Some]. simpl in Hl. congruence.
      - intros Hl. exists m. by apply map_lookup_filter_Some. }
    destruct (decide (s ∈ elements hs)) as [Hs|Hs].
    + apply Hhost in Hs. rewrite (decide_True (P := m ∩ _ ≠ ∅)) by set_solver.
      case_decide; set_solver.
    + rewrite Hhost in Hs. repeat case_decide; set_solver.
Qed.

(** X13.  When the injection label and the precursor labels are tasks of
    the pipeline, lines 230-233 return and change the subsets only: a
    subset that holds at least one precursor label holds the injection
    label in addition to its members, and a subset that holds none is left
    as it is. *)
Theorem update_subsets_exact injection_label precursors e :
  injection_label ∈ dom (tasks (pipeline e)) →
  precursors ⊆ dom (tasks (pipeline e)) →
  ∃ subsets',
    update_subsets injection_label precursors e
    = (mkEnv (mkPipeline (tasks (pipeline e)) subsets' (instrument (pipeline e)))
         (records e), inr tt) ∧
    ∀ s, subsets' !! s =
         with_injection_label injection_label precursors <$> labeled_subsets (pipeline e) !! s.
Proof.
  intros Hinj Hprec. destruct e as [p r]. simpl in *.
  destruct (update_subsets_loop injection_label (elements precursors) p r Hinj)
    as (subsets' & Hrun & Hlook).
  { intros l Hl%elem_of_elements. by apply Hprec. }
  exists subsets'. split; [exact Hrun|].
  intros s. rewrite Hlook. by rewrite list_to_set_elements_L.
Qed.

Lemma update_subsets_exact_witness :
  ∃ subsets',
    update_subsets "D" {[ "A" ]} (start chain_pipeline)
    = (mkEnv (mkPipeline (tasks (pipeline (start chain_pipeline))) subsets'
                (instrument (pipeline (start chain_pipeline))))
         (records (start chain_pipeline)), inr tt) ∧
    ∀ s, subsets' !! s =
         with_injection_label "D" {[ "A" ]}
           <$> labeled_subsets (pipeline (start chain_pipeline)) !! s.
Proof.
  apply (update_subsets_exact "D" {[ "A" ]} (start chain_pipeline)).
  - by apply (bool_decide_unpack _); vm_compute.
  - by apply (bool_decide_unpack _); vm_compute.
Defined.

(** Lines 230-233 change neither the tasks, nor the instrument, nor the
    log. *)
Lemma update_subsets_keeps injection_label precursors e e' :
  update_subsets injection_label precursors e = (e', inr tt) →
  tasks (pipeline e') = tasks (pipeline e) ∧
  instrument (pipeline e') = instrument (pipeline e) ∧
  records e' = records e.
Proof.
  set (P := λ e1 : Env,
         tasks (pipeline e1) = tasks (pipeline e) ∧
         instrument (pipeline e1) = instrument (pipeline e) ∧
         records e1 = records e).
  assert (∀ (ss : list string) e1 e2,
            P e1 →
            for_each ss (λ subset, method (addLabelToSubset subset injection_label)) e1
            = (e2, inr tt) → P e2) as Hinner.
  { intros ss e1 e2 HP. apply (for_each_inv P); [|done].
    intros s ea eb _ (Ht & Hi & Hr) [Hm Hrec]%method_inv.
    unfold addLabelToSubset in Hm. case_decide; [|done].
    destruct (labeled_subsets (pipeline ea) !! s); [|done].
    injection Hm as Hm. unfold P. rewrite <- Hm. simpl. repeat split; congruence. }
  unfold update_subsets. apply (for_each_inv P); [|by repeat split].
  intros lb e1 e2 _ HP (e3 & hs & Hq & Hrun)%bind_inv.
  unfold query in Hq. injection Hq as <- _. by eapply Hinner.
Qed.

(** X14.  After a merge step that returned, with the injection pipeline
    expanding to the one task definition [t]: past the merge proper
    ([mergePipeline]) nothing is logged, the instrument and every task of
    another label are as the merge proper left them, and the injection task
    has kept its class and every override but the two boundary ones; when
    [exclude_subsets] is true the subsets too are as the merge proper left
    them. *)
Theorem merge_changes_only_the_injection_task fromFile toExpandedPipeline
    dataset_type_name prefix exclude_subsets precursors injection_pipeline t e e' :
  toExpandedPipeline (load fromFile injection_pipeline) = [t] →
  merge_injection_pipeline fromFile toExpandedPipeline dataset_type_name prefix
    exclude_subsets precursors injection_pipeline e = (e', inr tt) →
  ∃ p1,
    mergePipeline (load fromFile injection_pipeline) (pipeline e) = inr p1 ∧
    records e' = records e ∧
    instrument (pipeline e') = instrument p1 ∧
    (∀ l, l ≠ label t → tasks (pipeline e') !! l = tasks p1 !! l) ∧
    klass <$> tasks (pipeline e') !! label t = klass <$> tasks p1 !! label t ∧
    (∀ key, key ≠ "connections.input_exposure" → key ≠ "connections.output_exposure" →
            configOverride (pipeline e') (label t) key = configOverride p1 (label t) key) ∧
    (exclude_subsets = true → labeled_subsets (pipeline e') = labeled_subsets p1).
Proof.
  intros Hexp (_ & p1 & Hmerge & Hloop)%merge_injection_pipeline_inv.
  rewrite Hexp in Hloop. cbn [for_each] in Hloop.
  apply bind_inv in Hloop as (e1 & [] & Hbody & [= <-]).
  apply injection_body_inv in Hbody as (p2 & p3 & H1 & H2 & H3). simpl in H3.
  exists p1. split; [exact Hmerge|].
  pose proof (addConfigOverride_inv _ _ _ _ _ H1) as ((_ & Hs2 & Hi2 & Ht2 & Hk2) & _).
  pose proof (addConfigOverride_inv _ _ _ _ _ H2) as ((_ & Hs3 & Hi3 & Ht3 & Hk3) & _).
  simpl in *.
  assert (tasks (pipeline e1) = tasks p3 ∧ instrument (pipeline e1) = instrument p3 ∧
          records e1 = records e ∧
          (exclude_subsets = true → labeled_subsets (pipeline e1) = labeled_subsets p3))
    as (Ht & Hi & Hr & Hs).
  { destruct exclude_subsets; simpl in H3.
    - by injection H3 as <-.
    - apply update_subsets_keeps in H3 as (? & ? & ?). by repeat split. }
  split; [exact Hr|]. split; [congruence|]. split; [|split; [|split]].
  - intros l Hl. rewrite Ht, Ht3, Ht2; done.
  - by rewrite Ht, Hk3, Hk2.
  - intros key Hin Hout.
    assert (configOverride (pipeline e1) (label t) key = configOverride p3 (label t) key)
      as -> by (unfold configOverride; by rewrite Ht).
    rewrite (configOverride_addConfigOverride _ _ _ _ _ (label t) key H2).
    rewrite (configOverride_addConfigOverride _ _ _ _ _ (label t) key H1).
    repeat case_decide; naive_solver.
  - intros Hex. rewrite (Hs Hex). congruence.
Qed.

Lemma merge_changes_only_the_injection_task_witness :
  ∃ p1,
    mergePipeline injection_stub chain_pipeline = inr p1 ∧
    labeled_subsets
      (pipeline
         (merge_injection_pipeline no_files (expand classes) "x" "injected_" true {[ "A" ]}
            (IsPipeline injection_stub) (start chain_pipeline)).1)
    = labeled_subsets p1.
Proof.
  destruct (merge_changes_only_the_injection_task no_files (expand classes) "x" "injected_"
              true {[ "A" ]} (IsPipeline injection_stub) task_inject
              (start chain_pipeline)
              (merge_injection_pipeline no_files (expand classes) "x" "injected_" true
                 {[ "A" ]} (IsPipeline injection_stub) (start chain_pipeline)).1)
    as (p1 & Hmerge & _ & _ & _ & _ & _ & Hsubsets).
  - vm_compute. reflexivity.
  - vm_compute. reflexivity.
  - exists p1. split; [exact Hmerge|]. by apply Hsubsets.
Defined.

(** ** What the function can raise *)

Lemma bind_raise {A B} (m : M A) (f : A → M B) e e' x :
  m e = (e', inl x) → (m ≫= f) e = (e', inl x).
Proof. intros H. by rewrite bind_run, H. Qed.

Lemma add_instrument_returns instrument e :
  ∃ e1, add_instrument instrument e = (e1, inr tt).
Proof.
  unfold add_instrument. destruct instrument as [i|]; [|by eexists].
  destruct (truthy_str i); by eexists.
Qed.

Lemma infer_keeps_pipeline dataset_type_name injection_pipeline e :
  ∃ e' inferred,
    infer_injection_pipeline dataset_type_name injection_pipeline e = (e', inr inferred) ∧
    pipeline e' = pipeline e.
Proof.
  unfold infer_injection_pipeline.
  destruct (truthy injection_pipeline); simpl; [by eexists _, _|].
  destruct (inferred_location dataset_type_name) as [location|].
  - rewrite bind_run. unfold mret at 1, M_ret at 1.
    destruct (truthy (Some (IsStr location))); by eexists _, _.
  - rewrite bind_run. unfold logger at 1, mbind at 1, M_bind at 1, mret at 1, M_ret at 1.
    destruct (truthy injection_pipeline); by eexists _, _.
Qed.

(** The merge step returns, or raises on the number of tasks, or the merge
    proper raises. *)
Lemma merge_outcomes fromFile toExpandedPipeline dataset_type_name prefix exclude_subsets
    precursors injection_pipeline e :
  (∀ t, t ∈ toExpandedPipeline (load fromFile injection_pipeline) →
        label t ∈ dom (tasks (load fromFile injection_pipeline))) →
  precursors ⊆ dom (tasks (pipeline e)) →
  ∃ e',
    let r := merge_injection_pipeline fromFile toExpandedPipeline dataset_type_name prefix
               exclude_subsets precursors injection_pipeline e in
    r = (e', inr tt) ∨
    (∃ n, n ≠ 1 ∧ r = (e', inl (RuntimeError (WrongTaskCount n)))) ∨
    r = (e', inl ValueError).
Proof.
  intros Hlabels Hprec. unfold merge_injection_pipeline.
  set (pipeline2 := load fromFile injection_pipeline) in *.
  case_decide as Hlen.
  { exists e. right. left. by exists (len pipeline2). }
  destruct (mergePipeline pipeline2 (pipeline e)) as [x|p1] eqn:Hmerge.
  { exists e. right. right. apply bind_raise. unfold method. rewrite Hmerge.
    unfold mergePipeline in Hmerge. case_decide; [done|]. by injection Hmerge as <-. }
  assert (dom (tasks p1) = dom (tasks (pipeline e)) ∪ dom (tasks pipeline2)) as Hdom1.
  { unfold mergePipeline in Hmerge. case_decide; [|done].
    injection Hmerge as <-. simpl. by rewrite dom_union_L. }
  rewrite (bind_ok _ _ _ _ _ (method_ok _ _ _ Hmerge)).
  destruct (for_each_total
              (λ e1, dom (tasks (pipeline e1)) = dom (tasks p1))
              (toExpandedPipeline pipeline2)
              (λ injection_taskDef,
                 method (addConfigOverride (label injection_taskDef)
                           "connections.input_exposure" dataset_type_name) ;;
                 method (addConfigOverride (label injection_taskDef)
                           "connections.output_exposure" (prefix +:+ dataset_type_name)) ;;
                 if negb exclude_subsets
                 then update_subsets (label injection_taskDef) precursors
                 else mret tt)
              (mkEnv p1 (records e))) as (e' & Hrun & _); [|done|by exists e'; left].
  intros t e1 Ht Hdom.
  assert (label t ∈ dom (tasks (pipeline e1))) as Hin1.
  { rewrite Hdom, Hdom1. apply Hlabels in Ht. set_solver. }
  destruct (addConfigOverride_ok (label t) "connections.input_exposure"
              dataset_type_name _ Hin1) as [p2 H2].
  pose proof (addConfigOverride_inv _ _ _ _ _ H2) as ((Hd2 & _) & _).
  assert (label t ∈ dom (tasks p2)) as Hin2 by (by rewrite Hd2).
  destruct (addConfigOverride_ok (label t) "connections.output_exposure"
              (prefix +:+ dataset_type_name) p2 Hin2) as [p3 H3].
  pose proof (addConfigOverride_inv _ _ _ _ _ H3) as ((Hd3 & _) & _).
  assert (∃ e2, (if negb exclude_subsets
                 then update_subsets (label t) precursors
                 else (mret tt : M unit)) (mkEnv p3 (records e1)) = (e2, inr tt) ∧
                dom (tasks (pipeline e2)) = dom (tasks p1)) as (e2 & He2 & Hdom2).
  { destruct (negb exclude_subsets).
    - assert (label t ∈ dom (tasks (pipeline (mkEnv p3 (records e1))))) as Ha
        by (simpl; by rewrite Hd3, Hd2).
      assert (precursors ⊆ dom (tasks (pipeline (mkEnv p3 (records e1))))) as Hb
        by (simpl; rewrite Hd3, Hd2, Hdom, Hdom1; set_solver).
      destruct (update_subsets_total fromFile toExpandedPipeline (label t) precursors _
                  Ha Hb) as [e2 He2].
      exists e2. split; [done|].
      apply update_subsets_keeps in He2 as (-> & _). simpl. congruence.
    - eexists. split; [reflexivity|]. simpl. congruence. }
  exists e2. split; [|exact Hdom2].
  erewrite bind_ok; [|by apply method_ok].
  erewrite bind_ok; [|by apply method_ok]. exact He2.
Qed.



(** ** More on the exclusion pass *)

(** X16.  The exclusion pass always returns and keeps the instrument.  The
    tasks left are exactly those whose label is not excluded.  A subset
    loses exactly the excluded labels that were tasks of the pipeline: an
    excluded label that no task carries stays in the subsets that hold
    it. *)
Theorem exclusion_pass_exact excluded_tasks e :
  ∃ e',
    remove_excluded_tasks excluded_tasks e = (e', inr tt) ∧
    instrument (pipeline e') = instrument (pipeline e) ∧
    (∀ k, tasks (pipeline e') !! k =
          if decide (k ∈ excluded_labels excluded_tasks) then None
          else tasks (pipeline e) !! k) ∧
    (∀ s, labeled_subsets (pipeline e') !! s =
          (λ m, m ∖ (excluded_labels excluded_tasks ∩ dom (tasks (pipeline e))))
            <$> labeled_subsets (pipeline e) !! s) ∧
    (∀ s m l, labeled_subsets (pipeline e) !! s = Some m → l ∈ m →
              l ∉ dom (tasks (pipeline e)) →
              ∃ m', labeled_subsets (pipeline e') !! s = Some m' ∧ l ∈ m').
Proof.
  destruct (remove_excluded_tasks_run excluded_tasks e)
    as (tasks' & subsets' & Hrun & Htasks & Hsubsets).
  eexists. split; [exact Hrun|]. simpl. split; [done|]. split; [exact Htasks|].
  split; [exact Hsubsets|].
  intros s m l Hm Hl Hnot. rewrite Hsubsets, Hm. simpl.
  eexists. split; [done|]. set_solver.
Qed.

(** X17.  Running the exclusion pass a second time with the same labels
    leaves the pipeline as the first run left it and reports every label as
    not found. *)
Theorem exclusion_pass_twice excluded_tasks e e1 :
  remove_excluded_tasks excluded_tasks e = (e1, inr tt) →
  ∃ report,
    remove_excluded_tasks excluded_tasks e1
    = (mkEnv (pipeline e1) (records e1 ++ report), inr tt) ∧
    (excluded_labels excluded_tasks = ∅ → report = []) ∧
    (excluded_labels excluded_tasks ≠ ∅ →
     report =
       [WarnNotExcluded
          (if decide (size (excluded_labels excluded_tasks) = 1) then "Task" else "Tasks")
          (join ", " (sorted (elements (excluded_labels excluded_tasks))))]).
Proof.
  intros Hfirst.
  destruct (remove_excluded_tasks_run excluded_tasks e)
    as (tasks1 & subsets1 & Hrun1 & Htasks1 & _).
  rewrite Hfirst in Hrun1. injection Hrun1 as He1.
  assert (∀ k, k ∈ excluded_labels excluded_tasks → tasks (pipeline e1) !! k = None)
    as Hgone.
  { intros k Hk. rewrite He1. simpl. rewrite Htasks1. by rewrite decide_True. }
  clear He1 Htasks1 Hfirst tasks1 subsets1.
  destruct (remove_excluded_tasks_run excluded_tasks e1)
    as (tasks2 & subsets2 & Hrun2 & Htasks2 & Hsubsets2).
  assert (excluded_labels excluded_tasks ∩ dom (tasks (pipeline e1)) = ∅) as Hdisj.
  { apply set_eq. intros k. split; [|set_solver].
    intros [Hk [x Hx]%elem_of_dom]%elem_of_intersection.
    by rewrite (Hgone k Hk) in Hx. }
  assert (excluded_labels excluded_tasks ∖ dom (tasks (pipeline e1))
          = excluded_labels excluded_tasks) as Hmissing by set_solver.
  assert (tasks2 = tasks (pipeline e1)) as ->.
  { apply map_eq. intros k. rewrite Htasks2.
    destruct (decide (k ∈ excluded_labels excluded_tasks)) as [Hk|Hk]; [|reflexivity].
    symmetry. by apply Hgone. }
  assert (subsets2 = labeled_subsets (pipeline e1)) as ->.
  { apply map_eq. intros s. rewrite Hsubsets2, Hdisj.
    destruct (labeled_subsets (pipeline e1) !! s); simpl; [|done]. f_equal. set_solver. }
  rewrite Hmissing in Hrun2.
  assert (mkPipeline (tasks (pipeline e1)) (labeled_subsets (pipeline e1))
            (instrument (pipeline e1)) = pipeline e1) as Hsame by (by destruct e1 as [[] ?]).
  rewrite Hsame in Hrun2. eexists. split; [exact Hrun2|]. split.
  - intros ->. rewrite decide_False; [done|]. rewrite size_empty. lia.
  - intros Hne. rewrite decide_True; [done|].
    destruct (size (excluded_labels excluded_tasks)) eqn:Hsize; [|lia].
    apply size_empty_iff in Hsize. exfalso. apply Hne. by apply leibniz_equiv.
Qed.

Lemma exclusion_pass_twice_witness :
  ∃ report,
    remove_excluded_tasks default_excluded_tasks plots_after_exclusion
    = (mkEnv (pipeline plots_after_exclusion) (records plots_after_exclusion ++ report),
       inr tt) ∧
    (excluded_labels default_excluded_tasks = ∅ → report = []) ∧
    (excluded_labels default_excluded_tasks ≠ ∅ →
     report =
       [WarnNotExcluded
          (if decide (size (excluded_labels default_excluded_tasks) = 1)
           then "Task" else "Tasks")
          (join ", " (sorted (elements (excluded_labels default_excluded_tasks))))]).
Proof.
  apply (exclusion_pass_twice default_excluded_tasks (start plots_pipeline)
           plots_after_exclusion).
  vm_compute. reflexivity.
Defined.

(** X18.  The empty string as [excluded_tasks] does not mean that nothing
    is excluded: it is split into the one label [""]; on a pipeline without
    a task of that label the pass changes nothing and warns, in the
    singular, about the empty label. *)
Theorem exclusion_of_empty_string e :
  "" ∉ dom (tasks (pipeline e)) →
  remove_excluded_tasks (ExcludedStr "") e
  = (mkEnv (pipeline e) (records e ++ [WarnNotExcluded "Task" ""]), inr tt).
Proof.
  intros Hnot.
  destruct (remove_excluded_tasks_run (ExcludedStr "") e)
    as (tasks' & subsets' & Hrun & Htasks & Hsubsets).
  assert (excluded_labels (ExcludedStr "") = {[ "" ]}) as Hlabels.
  { unfold excluded_labels. simpl. set_solver. }
  rewrite Hlabels in *.
  assert (({[ "" ]} : gset string) ∖ dom (tasks (pipeline e)) = {[ "" ]}) as Hmissing
    by set_solver.
  rewrite Hmissing, size_singleton, elements_singleton in Hrun.
  rewrite Hrun. simpl.
  assert (tasks' = tasks (pipeline e)) as ->.
  { apply map_eq. intros k. rewrite Htasks.
    destruct (decide (k ∈ ({[ "" ]} : gset string))) as [Hk|Hk]; [|reflexivity].
    apply elem_of_singleton in Hk as ->. symmetry. by apply not_elem_of_dom. }
  assert (subsets' = labeled_subsets (pipeline e)) as ->.
  { apply map_eq. intros s. rewrite Hsubsets.
    destruct (labeled_subsets (pipeline e) !! s); simpl; [|done]. f_equal. set_solver. }
  by destruct e as [[] ?].
Qed.

Lemma exclusion_of_empty_string_witness :
  remove_excluded_tasks (ExcludedStr "") (start chain_pipeline)
  = (mkEnv (pipeline (start chain_pipeline))
       (records (start chain_pipeline) ++ [WarnNotExcluded "Task" ""]), inr tt).
Proof.
  apply (exclusion_of_empty_string (start chain_pipeline)).
  by apply (bool_decide_unpack _); vm_compute.
Defined.

(** ** Renaming without merging *)

Lemma infer_unknown dataset_type_name injection_pipeline e :
  truthy injection_pipeline = false →
  inferred_location dataset_type_name = None →
  infer_injection_pipeline dataset_type_name injection_pipeline e
  = (mkEnv (pipeline e) (records e ++ [WarnNoInjectionPipeline dataset_type_name]),
     inr injection_pipeline).
Proof.
  intros Htruthy Hloc. unfold infer_injection_pipeline. rewrite Htruthy, Hloc. simpl.
  rewrite !bind_run. unfold logger at 1. rewrite ?bind_run. simpl.
  rewrite ?bind_run, Htruthy. reflexivity.
Qed.

Lemma for_fold_visit_records dataset_type_name prefix order l e e' l' :
  for_fold order (visit dataset_type_name prefix) l e = (e', inr l') →
  ∃ report, records e' = (records e ++ report)%list.
Proof.
  revert l e. induction order as [|t order IH]; intros l e Hrun; simpl in Hrun.
  - injection Hrun as <- _. exists []. by rewrite app_nil_r.
  - apply bind_inv in Hrun as (e1 & l1 & (_ & _ & Hr)%visit_frame & Hrest).
    destruct (IH _ _ Hrest) as [report Hrep]. rewrite Hrep, Hr.
    eexists. by rewrite <- app_assoc.
Qed.

(** X19.  When no injection pipeline is supplied, or one that is false in
    a condition, and the seed is not one of the known dataset type names, a
    call that returns has merged nothing: the returned pipeline has the
    tasks, classes, subsets and instrument the exclusion pass left, and
    differs from that state only in the overrides of the visited tasks; the
    log ends with the warning that no injection pipeline could be inferred
    and the number of tasks. *)
Theorem unknown_seed_renames_without_merging fromFile toExpandedPipeline dataset_type_name
    reference_pipeline injection_pipeline exclude_subsets excluded_tasks prefix
    instrument e1 e2 e' p' :
  truthy injection_pipeline = false →
  inferred_location dataset_type_name = None →
  add_instrument instrument (mkEnv (load fromFile reference_pipeline) []) = (e1, inr tt) →
  remove_excluded_tasks excluded_tasks e1 = (e2, inr tt) →
  make_injection_pipeline fromFile toExpandedPipeline dataset_type_name reference_pipeline
    injection_pipeline exclude_subsets excluded_tasks prefix instrument = (e', inr p') →
  differ_at_tasks (label <$> toExpandedPipeline (pipeline e2)) (pipeline e2) p' ∧
  ∃ report,
    records e' =
      (records e2 ++ report ++
       [WarnNoInjectionPipeline dataset_type_name; InfoMade (len p')])%list.
Proof.
  intros Htruthy Hloc H1 H2. unfold make_injection_pipeline, run.
  rewrite (bind_ok _ _ _ _ _ H1), (bind_ok _ _ _ _ _ H2).
  intros (e3 & l & Hdet & Hrest)%bind_inv.
  rewrite (bind_ok _ _ _ _ _ (infer_unknown _ _ _ Htruthy Hloc)) in Hrest.
  assert (propagate dataset_type_name prefix (toExpandedPipeline (pipeline e2)) e2
          = (e3, inr l)) as Hprop.
  { unfold determine_injected_types in Hdet. rewrite bind_run in Hdet.
    unfold get_pipeline in Hdet. rewrite bind_run in Hdet.
    destruct (propagate _ _ _ e2) as [e3' [x|l']]; [done|].
    case_decide; [done|]. by injection Hdet as <- <-. }
  assert (p' = pipeline e3 ∧
          records e' = (records e3 ++ [WarnNoInjectionPipeline dataset_type_name;
                                       InfoMade (len (pipeline e3))])%list) as [-> Hrec].
  { revert Hrest. rewrite bind_run.
    destruct injection_pipeline as [x|]; [rewrite Htruthy|];
      unfold mret at 1, M_ret at 1; rewrite bind_run; unfold get_pipeline;
      rewrite bind_run; unfold logger, mret, M_ret; simpl;
      intros [= <- <-]; simpl; by rewrite <- app_assoc. }
  destruct (for_fold_visit_records _ _ _ _ _ _ _ Hprop) as [report Hreport].
  split.
  - by apply for_fold_visit_inv in Hprop as [_ ?].
  - exists report. by rewrite Hrec, Hreport, <- app_assoc.
Qed.

Lemma unknown_seed_renames_without_merging_witness :
  differ_at_tasks
    (label <$> expand classes
                 (pipeline (remove_excluded_tasks default_excluded_tasks
                              (start chain_pipeline)).1))
    (pipeline (remove_excluded_tasks default_excluded_tasks (start chain_pipeline)).1)
    (returned empty_pipeline
       (make_injection_pipeline no_files (expand classes) "x" (IsPipeline chain_pipeline)
          None false default_excluded_tasks "injected_" None)) ∧
  ∃ report,
    records
      (make_injection_pipeline no_files (expand classes) "x" (IsPipeline chain_pipeline)
         None false default_excluded_tasks "injected_" None).1
    = (records (remove_excluded_tasks default_excluded_tasks (start chain_pipeline)).1
       ++ report ++
       [WarnNoInjectionPipeline "x";
        InfoMade (len (returned empty_pipeline
                         (make_injection_pipeline no_files (expand classes) "x"
                            (IsPipeline chain_pipeline) None false default_excluded_tasks
                            "injected_" None)))])%list.
Proof.
  apply (unknown_seed_renames_without_merging no_files (expand classes) "x"
           (IsPipeline chain_pipeline) None false default_excluded_tasks "injected_" None
           (start chain_pipeline)).
  - reflexivity.
  - reflexivity.
  - reflexivity.
  - vm_compute. reflexivity.
  - vm_compute. reflexivity.
Defined.
